(** * Blabber: the storage layer of the demo and its transaction driver

    A shallow embedding of [storage.hpp] / [storage.cpp] (the post tree, the
    strings heap, the optimized-string codec and the four domain operations)
    and of [database::run_in_transaction] from [database.cpp].  The
    implementation file of the store still calls its class [database]; the
    header calls it [storage], and so does this file.  [database.cpp] holds
    two revisions of the driver; the later one, around [run_in_transaction],
    is the one embedded ([exec_transaction] of the earlier one has the same
    body).

    Conventions.
    - [u64] values are [Z] in [0, 2^64); the one arithmetic operation on them
      ([id + 1] in [create_post]) is written with its wrap-around.
    - A [std::string] is a [list byte]; [size_t] counts are [nat], and the one
      comparison of a size against [numeric_limits<u32>::max()] is done in [Z].
    - A C++ function that may throw is a function into [result]; a function
      that mutates the store and may throw returns the store it leaves behind
      next to the outcome, so that what a rollback discards is visible.
    - The wall clock is an input: every operation that calls [std::time]
      receives the value that call returns. *)

From Stdlib Require Import String.
From Stdlib Require Import ZArith List Bool Lia.
From Stdlib Require Import Strings.Byte.
From Stdlib Require DecimalString.
Import ListNotations.

Local Open Scope string_scope.
Local Open Scope list_scope.
Local Open Scope Z_scope.

(** ** Exceptions and results *)

(** The exception classes of the code.  [database_error] and
    [not_found_error] are declared in [storage.hpp] ([not_found_error] is a
    subclass of [database_error]); [runtime_error] and [logic_error] are the
    standard ones.  [bad_reference] stands for whatever the heap library does
    when asked to dereference a reference it never handed out. *)
Inductive exn : Type :=
| database_error (what : string)
| not_found_error (what : string)
| runtime_error (what : string)
| logic_error (what : string)
| bad_reference.

Inductive result (A : Type) : Type :=
| OK (a : A)
| Throw (e : exn).
Arguments OK {A} a.
Arguments Throw {A} e.

Definition is_not_found {A} (r : result A) : bool :=
  match r with
  | Throw (not_found_error _) => true
  | _ => false
  end.

Definition throws {A} (r : result A) : bool :=
  match r with
  | Throw _ => true
  | OK _ => false
  end.

Declare Scope result_scope.
Delimit Scope result_scope with result.

Notation "x <- c1 ;; c2" :=
  (match c1 with
   | OK x => c2
   | Throw e => Throw e
   end)
  (at level 61, c1 at next level, right associativity) : result_scope.

(** [for (const T& x : xs) out.push_back(f(x))] where [f] may throw. *)
Fixpoint map_result {A B} (f : A -> result B) (xs : list A) : result (list B) :=
  match xs with
  | [] => OK []
  | x :: rest =>
      (y <- f x ;;
       ys <- map_result f rest ;;
       OK (y :: ys))%result
  end.

(** ** Integers and strings *)

Definition u64_modulus : Z := 2 ^ 64.

(** [std::numeric_limits<u32>::max()] *)
Definition u32_max : Z := 4294967295.

Definition str : Type := list byte.

(** [str.size()] as a number that can be compared with [u32_max]. *)
Definition size (s : str) : Z := Z.of_nat (length s).

(** ** The strings heap (prequel::heap)

    The heap is a container of the prequel library.  It is represented by
    what the code relies on: [allocate] stores a copy of the bytes and hands
    out a reference no earlier allocation has, [size] and [load] give back
    the bytes stored under a reference.  The blobs are kept in allocation
    order and a reference is the position of its blob. *)
Module heap.

Definition reference : Type := nat.
Definition t : Type := list str.

Definition empty : t := [].

Definition allocate (h : t) (data : str) : reference * t :=
  (length h, h ++ [data]).

Definition load (h : t) (ref : reference) : option str :=
  nth_error h ref.

End heap.

(** [load_string]: resize to [h.size(ref)], then [h.load] into the buffer. *)
Definition load_string (h : heap.t) (ref : heap.reference) : result str :=
  match heap.load h ref with
  | Some loaded => OK loaded
  | None => Throw bad_reference
  end.

(** [store_string]: [h.allocate(str.data(), str.size())]; no check of its own. *)
Definition store_string (h : heap.t) (s : str) : heap.reference * heap.t :=
  heap.allocate h s.

(** ** fixed_cstring<N> *)
Module fixed_cstring.

(** Modelled from the spec: [fixed_string.hpp], which declares
    [fixed_cstring<N>], is not among the sources.  The spec describes it as
    "an inline fixed byte array of size Cap (terminated by the first zero
    byte; shorter strings zero-pad the trailing bytes; all Cap bytes may be
    used)".  The value is the array of [N] bytes. *)
Definition t : Type := list byte.

(** Modelled from the spec: the constructor from a string, "raw bytes,
    zero-padded to Cap".  It is only ever called with [length s <= N]. *)
Definition make (N : nat) (s : str) : t :=
  firstn N s ++ repeat x00 (N - length s).

(** The bytes of [data] before its first zero byte. *)
Fixpoint until_zero (data : list byte) : list byte :=
  match data with
  | [] => []
  | b :: rest => if Byte.eqb b x00 then [] else b :: until_zero rest
  end.

(** Modelled from the spec: "inline form's length is the offset of the
    first zero byte, or Cap if no zero". *)
Definition size (s : t) : nat := length (until_zero s).

(** Modelled from the spec: the range [begin(), end())], the first
    [size()] bytes of the array. *)
Definition to_string (s : t) : str := firstn (size s) s.

End fixed_cstring.

(** ** optimized_string<Capacity> *)

(** [std::variant<fixed_cstring<Capacity>, prequel::heap::reference>] *)
Inductive optimized_string : Type :=
| inlined (s : fixed_cstring.t)
| on_heap (ref : heap.reference).



(** [load_optimized_string]: the visitor has one case per alternative. *)
Definition load_optimized_string (h : heap.t) (s : optimized_string) : result str :=
  match s with
  | inlined s' => OK (fixed_cstring.to_string s')
  | on_heap ref => load_string h ref
  end.

(** [store_optimized_string<Capacity>].  The heap is returned as the call
    leaves it, also when the call throws (it then has not touched it). *)
Definition store_optimized_string (Capacity : nat) (h : heap.t) (s : str)
  : result optimized_string * heap.t :=
  if size s >? u32_max then
    (Throw (database_error "String is too large."), h)
  else if (length s <=? Capacity)%nat then
    (OK (inlined (fixed_cstring.make Capacity s)), h)
  else
    let (ref, h') := store_string h s in
    (OK (on_heap ref), h').

(** Encode, then decode over the heap the encoder left. *)
Definition store_then_load (Capacity : nat) (h : heap.t) (s : str) : result str :=
  match store_optimized_string Capacity h s with
  | (OK o, h') => load_optimized_string h' o
  | (Throw e, _) => Throw e
  end.

(** ** Cursors (prequel containers)

    The tree and the list are containers of the prequel library; both are
    used through cursors.  A container is represented by its entries in
    iteration order and a valid cursor by a position in them: the entries
    before it (nearest first), the entry it stands on and the entries after
    it.  An invalid cursor ([!cursor]) is [None]. *)
Module cursor.
Section Cursor.
Context {A : Type}.

Record t : Type := mk { prev : list A; here : A; next : list A }.

Definition get (c : t) : A := here c.

Definition move_prev (c : t) : option t :=
  match prev c with
  | [] => None
  | p :: before => Some (mk before p (here c :: next c))
  end.

(** The container after [c.set(v)]. *)
Definition set (c : t) (v : A) : list A := rev (prev c) ++ v :: next c.

(** The container the cursor points into. *)
Definition container (c : t) : list A := rev (prev c) ++ here c :: next c.

(** [create_cursor(seek_max)] of the tree, [create_cursor(seek_last)] of
    the list. *)
Definition seek_last (entries : list A) : option t :=
  match rev entries with
  | [] => None
  | last :: before => Some (mk before last [])
  end.

(** The entries a cursor visits under repeated [move_prev], its own
    first. *)
Definition backwards (c : option t) : list A :=
  match c with
  | Some c' => here c' :: prev c'
  | None => []
  end.

(** [while (cursor && found.size() < max) { found.push_back(cursor.get());
    cursor.move_prev(); }], statement by statement.  Every iteration moves
    the cursor one entry back, so the loop is over after as many iterations
    as the container has entries; [fuel] bounds their number and [None] is
    returned when it does not suffice. *)
Fixpoint collect_loop (fuel : nat) (c : option t) (max : nat) (found : list A)
  : option (list A) :=
  match c with
  | None => Some found
  | Some c' =>
      if (length found <? max)%nat then
        match fuel with
        | O => None
        | S fuel' => collect_loop fuel' (move_prev c') max (found ++ [get c'])
        end
      else Some found
  end.

(** The same loop, run over the entries the cursor has yet to visit: the
    head is [cursor.get()], the tail belongs to the cursor after
    [move_prev], and the empty list is the invalid cursor.  This is the form
    the operations below use; [collect_loop_enough_fuel] shows that it is
    what the loop above computes. *)
Fixpoint collect (to_visit : list A) (max : nat) (found : list A) : list A :=
  match to_visit with
  | [] => found
  | entry :: before =>
      if (length found <? max)%nat
      then collect before max (found ++ [entry])
      else found
  end.
End Cursor.
Arguments t A : clear implicits.
End cursor.

(** ** Records of [storage.hpp] *)

Module comment.
Record t : Type := mk
  { created_at : Z;
    user : optimized_string;       (* optimized_string<15> *)
    content : heap.reference }.
End comment.

(** [prequel::list<comment>]: the anchor stands for the list it roots. *)
Module comment_list.
Definition anchor : Type := list comment.t.

Definition empty : anchor := [].

(** A list opened over [anchor_handle(a, flag)]: the anchor together with
    the flag that records whether it was written. *)
Definition handle : Type := (anchor * bool)%type.

(** [push_back] links the value in at the tail and updates the anchor,
    which raises the flag. *)
Definition push_back (l : handle) (c : comment.t) : handle :=
  (fst l ++ [c], true).

Definition seek_last (l : handle) : option (cursor.t comment.t) :=
  cursor.seek_last (fst l).
End comment_list.

Module post.
Record t : Type := mk
  { id : Z;
    created_at : Z;
    user : optimized_string;       (* optimized_string<15> *)
    title : optimized_string;      (* optimized_string<31> *)
    content : heap.reference;
    comments : comment_list.anchor }.

Definition with_comments (p : t) (a : comment_list.anchor) : t :=
  mk (id p) (created_at p) (user p) (title p) (content p) a.
End post.

(** [prequel::btree<post, indexed_by_member<&post::id>>]: the entries in key
    order, at most one per key. *)
Module btree.
Definition t : Type := list post.t.

Definition empty : t := [].

(** [insert] puts the value at its place in key order; a value whose key
    is already present is not inserted. *)
Fixpoint insert (v : post.t) (tree : t) : t :=
  match tree with
  | [] => [v]
  | p :: rest =>
      if post.id v <? post.id p then v :: p :: rest
      else if post.id v =? post.id p then p :: rest
      else p :: insert v rest
  end.

Fixpoint find_from (before : list post.t) (tree : t) (key : Z)
  : option (cursor.t post.t) :=
  match tree with
  | [] => None
  | p :: rest =>
      if post.id p =? key then Some (cursor.mk before p rest)
      else find_from (p :: before) rest key
  end.

(** [find(key)]: a cursor on the entry with that key, or an invalid one. *)
Definition find (tree : t) (key : Z) : option (cursor.t post.t) :=
  find_from [] tree key.

Definition seek_max (tree : t) : option (cursor.t post.t) :=
  cursor.seek_last tree.

Definition keys (tree : t) : list Z := map post.id tree.
End btree.

Module post_entry.
Record t : Type := mk
  { id : Z; created_at : Z; user : str; title : str }.
End post_entry.

Module frontpage_result.
Record t : Type := mk { entries : list post_entry.t }.
End frontpage_result.

Module comment_entry.
Record t : Type := mk { created_at : Z; user : str; content : str }.
End comment_entry.

Module post_result.
Record t : Type := mk
  { id : Z;
    created_at : Z;
    user : str;
    title : str;
    content : str;
    comments : list comment_entry.t }.
End post_result.

(** ** The store ([class storage], [storage.cpp]) *)
Module storage.

(** [storage::anchor].  The anchors of the tree and of the heap stand for
    the containers they root. *)
Record anchor : Type := mk_anchor
  { next_post_id : Z;
    posts : btree.t;
    strings : heap.t }.

(** A default-constructed anchor, as [init_master_block] writes it:
    [next_post_id = 1], an empty tree, an empty heap. *)
Definition initial : anchor :=
  {| next_post_id := 1; posts := btree.empty; strings := heap.empty |}.

(** A member function that mutates the store and may throw.  The store is
    returned as the function leaves it, also when it throws. *)
Definition M (A : Type) : Type := anchor -> result A * anchor.

Definition ret {A} (a : A) : M A := fun s => (OK a, s).

Definition throw {A} (e : exn) : M A := fun s => (Throw e, s).

Definition bind {A B} (m : M A) (k : A -> M B) : M B :=
  fun s =>
    match m s with
    | (OK a, s') => k a s'
    | (Throw e, s') => (Throw e, s')
    end.

(** A call that cannot change the store. *)
Definition lift {A} (r : result A) : M A := fun s => (r, s).

(** [m_anchor.get<&anchor::next_post_id>()] *)
Definition get_next_post_id : M Z := fun s => (OK (next_post_id s), s).

(** [m_anchor.set<&anchor::next_post_id>(v)] *)
Definition set_next_post_id (v : Z) : M unit :=
  fun s => (OK tt, mk_anchor v (posts s) (strings s)).

(** A call on [m_strings]. *)
Definition on_strings {A} (f : heap.t -> result A * heap.t) : M A :=
  fun s => let (r, h) := f (strings s) in (r, mk_anchor (next_post_id s) (posts s) h).

(** A call that replaces the content of [m_posts]. *)
Definition set_posts (tree : btree.t) : M unit :=
  fun s => (OK tt, mk_anchor (next_post_id s) tree (strings s)).

Definition get_posts : M btree.t := fun s => (OK (posts s), s).

Declare Scope store_scope.
Delimit Scope store_scope with store.

Notation "x <- c1 ;; c2" := (bind c1 (fun x => c2))
  (at level 61, c1 at next level, right associativity) : store_scope.
Notation "c1 ;; c2" := (bind c1 (fun _ => c2))
  (at level 61, right associativity) : store_scope.

(** [current_timestamp], given the value [std::time(0)] returns. *)
Definition current_timestamp (t : Z) : result Z :=
  if t <? 0 then Throw (runtime_error "time() failed.") else OK t.

(** [storage::create_post] *)
Definition create_post (user title content : str) (now : Z) : M Z :=
  (id <- get_next_post_id ;;
   if id =? 0 then throw (database_error "ID space exhausted.")
   else
     created_at <- lift (current_timestamp now) ;;
     user' <- on_strings (fun h => store_optimized_string 15 h user) ;;
     title' <- on_strings (fun h => store_optimized_string 31 h title) ;;
     content' <- on_strings (fun h => let (ref, h') := store_string h content in (OK ref, h')) ;;
     let new_post :=
       post.mk id created_at user' title' content' comment_list.empty in
     tree <- get_posts ;;
     set_posts (btree.insert new_post tree) ;;
     set_next_post_id ((id + 1) mod u64_modulus) ;;
     ret id)%store.

(** [storage::create_comment] *)
Definition create_comment (post_id : Z) (user content : str) (now : Z) : M unit :=
  (tree <- get_posts ;;
   match btree.find tree post_id with
   | None => throw (not_found_error "Post not found.")
   | Some post_cursor =>
       let found_post := cursor.get post_cursor in
       let comments : comment_list.handle := (post.comments found_post, false) in
       created_at <- lift (current_timestamp now) ;;
       user' <- on_strings (fun h => store_optimized_string 15 h user) ;;
       content' <- on_strings (fun h => let (ref, h') := store_string h content in (OK ref, h')) ;;
       let new_comment := comment.mk created_at user' content' in
       let comments := comment_list.push_back comments new_comment in
       let found_post := post.with_comments found_post (fst comments) in
       let post_changed := snd comments in
       if post_changed
       then set_posts (cursor.set post_cursor found_post)
       else ret tt
   end)%store.

(** The loop body of [fetch_frontpage]'s second loop. *)
Definition load_post_entry (h : heap.t) (p : post.t) : result post_entry.t :=
  (user <- load_optimized_string h (post.user p) ;;
   title <- load_optimized_string h (post.title p) ;;
   OK (post_entry.mk (post.id p) (post.created_at p) user title))%result.

(** [storage::fetch_frontpage], a [const] member function. *)
Definition fetch_frontpage (max_posts : nat) (s : anchor) : result frontpage_result.t :=
  let tree_cursor := btree.seek_max (posts s) in
  let found_posts := cursor.collect (cursor.backwards tree_cursor) max_posts [] in
  let found_posts := rev found_posts in
  (entries <- map_result (load_post_entry (strings s)) found_posts ;;
   OK (frontpage_result.mk entries))%result.

(** The loop body of [fetch_post]'s second loop. *)
Definition load_comment_entry (h : heap.t) (c : comment.t) : result comment_entry.t :=
  (user <- load_optimized_string h (comment.user c) ;;
   content <- load_string h (comment.content c) ;;
   OK (comment_entry.mk (comment.created_at c) user content))%result.

(** [storage::fetch_post], a [const] member function. *)
Definition fetch_post (post_id : Z) (max_comments : nat) (s : anchor) : result post_result.t :=
  match btree.find (posts s) post_id with
  | None => Throw (not_found_error "Post not found.")
  | Some post_cursor =>
      let found_post := cursor.get post_cursor in
      let comments : comment_list.handle := (post.comments found_post, false) in
      let comment_cursor := comment_list.seek_last comments in
      let found_comments :=
        cursor.collect (cursor.backwards comment_cursor) max_comments [] in
      let found_comments := rev found_comments in
      let post_changed := snd comments in
      if post_changed
      then Throw (logic_error "Must not modify the post in a read only operation.")
      else
        (user <- load_optimized_string (strings s) (post.user found_post) ;;
         title <- load_optimized_string (strings s) (post.title found_post) ;;
         content <- load_string (strings s) (post.content found_post) ;;
         comments <- map_result (load_comment_entry (strings s)) found_comments ;;
         OK (post_result.mk (post.id found_post) (post.created_at found_post)
               user title content comments))%result
  end.

(** Modelled from the spec: [storage::dump] is declared in [storage.hpp] but
    its body is not among the sources.  The spec has it write "a
    human-readable text snapshot" of the store to the stream it is given;
    the text is left unspecified, so only the effect on the store (none) is
    represented. *)
Definition dump : M unit := ret tt.

End storage.

(** ** The transaction driver ([class database], [database.cpp]) *)
Module database.

(** What a [database] object holds that the operations depend on: the
    [m_open] flag and, behind [m_engine], the committed content of the file
    (the store anchor of the master block and everything it roots).  The
    journal and the checkpoints change where the committed content is kept,
    not what it is, and are not represented. *)
Record t : Type := mk
  { m_open : bool;
    committed : storage.anchor }.

(** The constructor on a file of size 0: [open] calls [init_master_block],
    which commits a default-constructed master block, and sets [m_open]. *)
Definition fresh : t := mk true storage.initial.

(** [database::run_in_transaction].  [begin] makes the committed content
    the working content; the master block is read from block 0 and [fn] runs
    on the store opened on it.  When [fn] returns, the master block is
    written back if it changed and the working content is committed; when
    [fn] throws, [rollback] discards the working content and the exception
    is thrown again. *)
Definition run_in_transaction {A} (fn : storage.M A) (db : t) : result A * t :=
  if negb (m_open db) then
    (Throw (logic_error "Transactions cannot be started after a clean shutdown."), db)
  else
    let master := committed db in
    match fn master with
    | (OK a, master') => (OK a, mk (m_open db) master')
    | (Throw e, _) => (Throw e, db)
    end.

Definition create_post (user title content : str) (now : Z) (db : t) : result Z * t :=
  run_in_transaction (storage.create_post user title content now) db.

Definition create_comment (post_id : Z) (user content : str) (now : Z) (db : t)
  : result unit * t :=
  run_in_transaction (storage.create_comment post_id user content now) db.

Definition fetch_frontpage (max_posts : nat) (db : t) : result frontpage_result.t * t :=
  run_in_transaction (fun store => (storage.fetch_frontpage max_posts store, store)) db.

Definition fetch_post (post_id : Z) (max_comments : nat) (db : t)
  : result post_result.t * t :=
  run_in_transaction (fun store => (storage.fetch_post post_id max_comments store, store)) db.

Definition dump (db : t) : result unit * t :=
  run_in_transaction storage.dump db.

(** [database::finish] *)
Definition finish (db : t) : result unit * t :=
  if negb (m_open db) then
    (Throw (logic_error "database::finish() was already called."), db)
  else
    (OK tt, mk false (committed db)).

End database.

(** ** Sequences of public operations *)

Inductive request : Type :=
| CreatePost (user title content : str) (now : Z)
| CreateComment (post_id : Z) (user content : str) (now : Z)
| FetchFrontpage (max_posts : nat)
| FetchPost (post_id : Z) (max_comments : nat)
| Dump
| Finish.

Inductive response : Type :=
| Created (r : result Z)
| Commented (r : result unit)
| Frontpage (r : result frontpage_result.t)
| Fetched (r : result post_result.t)
| Dumped (r : result unit)
| Finished (r : result unit).

Definition is_create_post (q : request) : bool :=
  match q with CreatePost _ _ _ _ => true | _ => false end.

Definition serve (q : request) (db : database.t) : response * database.t :=
  match q with
  | CreatePost user title content now =>
      let (r, db') := database.create_post user title content now db in (Created r, db')
  | CreateComment post_id user content now =>
      let (r, db') := database.create_comment post_id user content now db in (Commented r, db')
  | FetchFrontpage max_posts =>
      let (r, db') := database.fetch_frontpage max_posts db in (Frontpage r, db')
  | FetchPost post_id max_comments =>
      let (r, db') := database.fetch_post post_id max_comments db in (Fetched r, db')
  | Dump =>
      let (r, db') := database.dump db in (Dumped r, db')
  | Finish =>
      let (r, db') := database.finish db in (Finished r, db')
  end.

(** The requests are served in order; the responses come in the same order. *)
Fixpoint serve_all (qs : list request) (db : database.t) : list response * database.t :=
  match qs with
  | [] => ([], db)
  | q :: rest =>
      let (r, db') := serve q db in
      let (rs, db'') := serve_all rest db' in
      (r :: rs, db'')
  end.

(** The database a sequence of requests leaves, starting from a fresh one. *)
Definition after (qs : list request) : database.t := snd (serve_all qs database.fresh).

(** The ids the successful [create_post] calls returned, in call order. *)
Fixpoint created_ids (rs : list response) : list Z :=
  match rs with
  | [] => []
  | Created (OK id) :: rest => id :: created_ids rest
  | _ :: rest => created_ids rest
  end.

(** [first, first + 1, ..., first + count - 1] *)
Fixpoint count_from (first : Z) (count : nat) : list Z :=
  match count with
  | O => []
  | S n => first :: count_from (first + 1) n
  end.

(** The bytes of a string literal. *)
Definition bytes (s : string) : str := list_byte_of_string s.

(** [fn], and then a throw: a fault injected after the work of [fn]. *)
Definition then_throw {A} (fn : storage.M A) (e : exn) : storage.M A :=
  storage.bind fn (fun _ => storage.throw e).


(** Two posts, created one after the other. *)
Definition two_posts : list request :=
  [ CreatePost (bytes "alice") (bytes "hi") (bytes "hello world") 100;
    CreatePost (bytes "bob") (bytes "second") (repeat x78 100) 101 ].

(** Two comments on the second of the two posts. *)
Definition two_comments : list request :=
  two_posts ++
  [ CreateComment 2 (bytes "carol") (bytes "nice") 102;
    CreateComment 2 (bytes "dave") (bytes "+1") 103 ].

(** The shape of the store between transactions: the tree holds the ids
    [1 .. n] in this order, where [n] is the number of posts, and the next id
    is [n + 1] as a [u64] (0 once all 2^64 - 1 ids have been handed out). *)
Definition well_formed (store : storage.anchor) : Prop :=
  let n := length (storage.posts store) in
  btree.keys (storage.posts store) = count_from 1 n /\
  Z.of_nat n < u64_modulus /\
  storage.next_post_id store = (Z.of_nat n + 1) mod u64_modulus.

(** The request that creates an empty post at time 0, as often as there are
    ids: 2^64 - 1 times. *)
Definition exhausting : list request :=
  repeat (CreatePost [] [] [] 0) (Z.to_nat (u64_modulus - 1)).

(** ** References into the heap *)

(** A reference resolves when the heap has handed it out. *)
Definition resolves (h : heap.t) (ref : heap.reference) : Prop :=
  (ref < length h)%nat.

Definition optimized_resolves (h : heap.t) (o : optimized_string) : Prop :=
  match o with
  | inlined _ => True
  | on_heap ref => resolves h ref
  end.

Definition comment_resolves (h : heap.t) (c : comment.t) : Prop :=
  optimized_resolves h (comment.user c) /\ resolves h (comment.content c).

Definition post_resolves (h : heap.t) (p : post.t) : Prop :=
  optimized_resolves h (post.user p) /\
  optimized_resolves h (post.title p) /\
  resolves h (post.content p) /\
  Forall (comment_resolves h) (post.comments p).

(** No post and no comment in the tree holds a dangling reference. *)
Definition no_dangling (store : storage.anchor) : Prop :=
  Forall (post_resolves (storage.strings store)) (storage.posts store).

(** What [fetch_post] does once it has found the post: the part of its body
    after [post found_post = post_cursor.get()]. *)
Definition read_found_post (h : heap.t) (max_comments : nat) (found_post : post.t)
  : result post_result.t :=
  let comments : comment_list.handle := (post.comments found_post, false) in
  let comment_cursor := comment_list.seek_last comments in
  let found_comments :=
    cursor.collect (cursor.backwards comment_cursor) max_comments [] in
  let found_comments := rev found_comments in
  let post_changed := snd comments in
  if post_changed
  then Throw (logic_error "Must not modify the post in a read only operation.")
  else
    (user <- load_optimized_string h (post.user found_post) ;;
     title <- load_optimized_string h (post.title found_post) ;;
     content <- load_string h (post.content found_post) ;;
     comments <- map_result (storage.load_comment_entry h) found_comments ;;
     OK (post_result.mk (post.id found_post) (post.created_at found_post)
           user title content comments))%result.

(** The entry of the tree a lookup by id stands on, if any. *)
Definition lookup (tree : btree.t) (key : Z) : option post.t :=
  option_map cursor.here (btree.find tree key).

(** The exception a response carries, if any. *)
Definition response_exn (r : response) : option exn :=
  match r with
  | Created (Throw e) | Commented (Throw e) | Frontpage (Throw e)
  | Fetched (Throw e) | Dumped (Throw e) | Finished (Throw e) => Some e
  | _ => None
  end.

(** A store whose id space is exhausted: the counter has wrapped to 0. *)
Definition exhausted_store : storage.anchor :=
  storage.mk_anchor 0 btree.empty heap.empty.

(** Every time stamp in the tree is one [current_timestamp] accepted. *)
Definition timestamps_sane (store : storage.anchor) : Prop :=
  Forall (fun p => 0 <= post.created_at p /\
                   Forall (fun c => 0 <= comment.created_at c) (post.comments p))
         (storage.posts store).

(** ** The driver as exposed to Python (the earlier revision in
    [database.cpp])

    In that revision the member functions of [database] are the ones bound
    to Python: [create_comment] and [fetch_post] catch [not_found_error] and
    turn it into [false] and [None].  A [py::dict] is represented by the
    record it is filled from. *)
Module python.

(** [database::exec_transaction]: the body of [run_in_transaction] with
    another message. *)
Definition exec_transaction {A} (fn : storage.M A) (db : database.t)
  : result A * database.t :=
  if negb (database.m_open db) then
    (Throw (logic_error
              "Transactions cannot be started after the database has been shut down."),
     db)
  else
    let master := database.committed db in
    match fn master with
    | (OK a, master') => (OK a, database.mk (database.m_open db) master')
    | (Throw e, _) => (Throw e, db)
    end.

(** [bool database::create_comment(...)] *)
Definition create_comment (post_id : Z) (user content : str) (now : Z) (db : database.t)
  : result bool * database.t :=
  match exec_transaction (storage.create_comment post_id user content now) db with
  | (OK _, db') => (OK true, db')
  | (Throw (not_found_error _), db') => (OK false, db')
  | (Throw e, db') => (Throw e, db')
  end.

(** [py::object database::fetch_post(...)]: [py::none()] or the dictionary. *)
Definition fetch_post (post_id : Z) (max_comments : nat) (db : database.t)
  : result (option post_result.t) * database.t :=
  match exec_transaction
          (fun store => (storage.fetch_post post_id max_comments store, store)) db with
  | (OK r, db') => (OK (Some r), db')
  | (Throw (not_found_error _), db') => (OK None, db')
  | (Throw e, db') => (Throw e, db')
  end.

End python.

(** ** The file header ([database.cpp]) *)
Module master.

Definition FILE_FORMAT_MAGIC : string := "BLABBER_DB".

Definition FILE_FORMAT_VERSION : Z := 1.

(** [database::file_header]; [prequel::magic_header] is compared as the
    string it was made from. *)
Record file_header : Type := mk_header
  { magic : string;
    version : Z }.

(** The header [init_master_block] writes. *)
Definition initial_header : file_header :=
  mk_header FILE_FORMAT_MAGIC FILE_FORMAT_VERSION.

(** [{}] of [fmt::format] for a [u32]: its decimal digits. *)
Definition format_u32 (v : Z) : string :=
  DecimalString.NilZero.string_of_uint (N.to_uint (Z.to_N v)).

(** [database::check_header] *)
Definition check_header (header : file_header) : result unit :=
  if negb (String.eqb (magic header) FILE_FORMAT_MAGIC) then
    Throw (runtime_error "Invalid file (wrong magic header).")
  else if negb (version header =? FILE_FORMAT_VERSION) then
    Throw (runtime_error
             (String.append "Unsupported version: File version is "
                (String.append (format_u32 (version header))
                   (String.append " but only version "
                      (String.append (format_u32 FILE_FORMAT_VERSION)
                         " is supported.")))))
  else OK tt.

End master.



(** * Properties *)

(** ** The optimized-string codec *)

Section Codec.

Variable Capacity : nat.

Lemma until_zero_no_zero (s : str) :
  ~ In x00 s -> fixed_cstring.until_zero s = s.
Proof.
  induction s as [|b rest IH]; simpl; intros Hno; [reflexivity|].
  destruct (Byte.eqb b x00) eqn:Eb.
  - apply Byte.byte_dec_bl in Eb. subst b. exfalso. apply Hno. now left.
  - f_equal. apply IH. intros Hin. apply Hno. now right.
Qed.

Lemma until_zero_is_prefix (s tail : list byte) :
  firstn (length (fixed_cstring.until_zero s)) (s ++ tail) = fixed_cstring.until_zero s.
Proof.
  induction s as [|b rest IH]; simpl; [reflexivity|].
  destruct (Byte.eqb b x00); simpl; [reflexivity|].
  now rewrite IH.
Qed.

Lemma until_zero_padded (s : list byte) (n : nat) :
  fixed_cstring.until_zero (s ++ repeat x00 n) = fixed_cstring.until_zero s.
Proof.
  induction s as [|b rest IH]; simpl.
  - destruct n; reflexivity.
  - destruct (Byte.eqb b x00); [reflexivity|]. now rewrite IH.
Qed.

Lemma make_fits (s : str) :
  (length s <= Capacity)%nat ->
  fixed_cstring.make Capacity s = s ++ repeat x00 (Capacity - length s).
Proof.
  intros Hle. unfold fixed_cstring.make. now rewrite firstn_all2 by exact Hle.
Qed.


(** What comes back out of an inlined string: the bytes before the first
    zero byte. *)
Lemma to_string_make (s : str) :
  (length s <= Capacity)%nat ->
  fixed_cstring.to_string (fixed_cstring.make Capacity s) = fixed_cstring.until_zero s.
Proof.
  intros Hle. rewrite make_fits by exact Hle.
  unfold fixed_cstring.to_string, fixed_cstring.size.
  rewrite until_zero_padded. apply until_zero_is_prefix.
Qed.

Lemma load_after_allocate (h : heap.t) (s : str) :
  heap.load (snd (heap.allocate h s)) (fst (heap.allocate h s)) = Some s.
Proof.
  unfold heap.load, heap.allocate. simpl.
  rewrite nth_error_app2 by lia. now rewrite Nat.sub_diag.
Qed.

(** Earlier references keep their blobs when the heap grows. *)
Lemma load_preserved (h : heap.t) (s blob : str) (ref : heap.reference) :
  heap.load h ref = Some blob ->
  heap.load (snd (heap.allocate h s)) ref = Some blob.
Proof.
  unfold heap.load, heap.allocate. simpl. intros Hl.
  rewrite nth_error_app1; [exact Hl|].
  apply nth_error_Some. congruence.
Qed.


Lemma store_inline (h : heap.t) (s : str) :
  size s <= u32_max -> (length s <= Capacity)%nat ->
  store_optimized_string Capacity h s = (OK (inlined (fixed_cstring.make Capacity s)), h).
Proof.
  intros Hsz Hle. unfold store_optimized_string.
  destruct (Z.gtb_spec (size s) u32_max); [lia|].
  apply Nat.leb_le in Hle. now rewrite Hle.
Qed.

Lemma store_on_heap (h : heap.t) (s : str) :
  size s <= u32_max -> (Capacity < length s)%nat ->
  store_optimized_string Capacity h s = (OK (on_heap (length h)), h ++ [s]).
Proof.
  intros Hsz Hgt. unfold store_optimized_string.
  destruct (Z.gtb_spec (size s) u32_max); [lia|].
  apply Nat.leb_gt in Hgt. now rewrite Hgt.
Qed.

(** What encoding followed by decoding returns, for every string the
    encoder accepts. *)
Lemma store_then_load_spec (h : heap.t) (s : str) :
  size s <= u32_max ->
  store_then_load Capacity h s =
    OK (if (length s <=? Capacity)%nat then fixed_cstring.until_zero s else s).
Proof.
  intros Hsz. unfold store_then_load.
  destruct (length s <=? Capacity)%nat eqn:E.
  - apply Nat.leb_le in E. rewrite store_inline by assumption. simpl.
    now rewrite to_string_make.
  - apply Nat.leb_gt in E. rewrite store_on_heap by assumption. simpl.
    unfold load_string. pose proof (load_after_allocate h s) as Hl.
    simpl in Hl. now rewrite Hl.
Qed.

End Codec.

(** A string that is too long to be inlined, or has no zero byte, survives
    encoding and decoding. *)
Lemma store_then_load_faithful (Capacity : nat) (h : heap.t) (s : str) :
  size s <= u32_max ->
  (Capacity < length s)%nat \/ ~ In x00 s ->
  store_then_load Capacity h s = OK s.
Proof.
  intros Hsz Hs.
  rewrite store_then_load_spec by exact Hsz.
  destruct (length s <=? Capacity)%nat eqn:E; [|reflexivity].
  apply Nat.leb_le in E. destruct Hs as [Hlong|Hno]; [lia|].
  now rewrite until_zero_no_zero.
Qed.




(** The lengths the spec singles out, for both capacities. *)
Example round_trip_lengths :
  forall Capacity n,
    In Capacity [15; 31]%nat ->
    In n [0; 1; Capacity - 1; Capacity; Capacity + 1; 100 * 100]%nat ->
    store_then_load Capacity heap.empty (repeat x61 n) = OK (repeat x61 n).
Proof.
  intros Capacity n HC Hn.
  apply store_then_load_faithful.
  - unfold size. rewrite repeat_length.
    assert (n <= 100 * 100)%nat by (unfold In in HC, Hn; lia).
    unfold u32_max. lia.
  - right. intros Hin. apply repeat_spec in Hin. discriminate Hin.
Qed.




(** ** Cursors and the collecting loop *)

Section Collect.

Context {A : Type}.

Lemma collect_firstn (to_visit : list A) (max : nat) (found : list A) :
  cursor.collect to_visit max found
  = found ++ firstn (max - length found) to_visit.
Proof.
  revert found. induction to_visit as [|entry before IH]; intros found; simpl.
  - now rewrite firstn_nil, app_nil_r.
  - destruct (Nat.ltb_spec (length found) max) as [Hlt|Hge].
    + rewrite IH, length_app. simpl.
      replace (max - length found)%nat with (S (max - (length found + 1)))%nat by lia.
      simpl. now rewrite <- app_assoc.
    + replace (max - length found)%nat with 0%nat by lia.
      simpl. now rewrite app_nil_r.
Qed.

Lemma backwards_seek_last (entries : list A) :
  cursor.backwards (cursor.seek_last entries) = rev entries.
Proof.
  unfold cursor.seek_last. destruct (rev entries); reflexivity.
Qed.

(** Moving a cursor back drops the entry it stood on from what it has yet
    to visit. *)
Lemma backwards_move_prev (c : cursor.t A) :
  cursor.backwards (cursor.move_prev c) = tl (cursor.backwards (Some c)).
Proof.
  unfold cursor.move_prev. simpl. destruct (cursor.prev c); reflexivity.
Qed.

(** With as much fuel as the cursor has entries to visit, the loop written
    with [get] and [move_prev] ends, and with the result of [collect]. *)
Lemma collect_loop_enough_fuel (fuel : nat) (c : option (cursor.t A)) (max : nat)
      (found : list A) :
  (length (cursor.backwards c) <= fuel)%nat ->
  cursor.collect_loop fuel c max found
  = Some (cursor.collect (cursor.backwards c) max found).
Proof.
  revert c found. induction fuel as [|fuel IH]; intros c found Hfuel.
  - destruct c as [c'|]; simpl in *; [lia|reflexivity].
  - destruct c as [c'|]; [|reflexivity].
    simpl. destruct (length found <? max)%nat; [|reflexivity].
    rewrite IH.
    + now rewrite backwards_move_prev.
    + rewrite backwards_move_prev. simpl in *. lia.
Qed.

(** The loop, started at the last entry, followed by [std::reverse]: what
    is left is the last [max] entries in their original order. *)
Lemma collect_then_reverse (entries : list A) (max : nat) :
  rev (cursor.collect (cursor.backwards (cursor.seek_last entries)) max [])
  = skipn (length entries - max) entries.
Proof.
  rewrite backwards_seek_last, collect_firstn. simpl. rewrite Nat.sub_0_r.
  rewrite firstn_rev, rev_involutive.
  reflexivity.
Qed.

Lemma collect_then_reverse_length (entries : list A) (max : nat) :
  (length (rev (cursor.collect (cursor.backwards (cursor.seek_last entries)) max []))
   <= max)%nat.
Proof.
  rewrite collect_then_reverse, length_skipn. lia.
Qed.

End Collect.

Lemma map_result_length {A B} (f : A -> result B) (xs : list A) (ys : list B) :
  map_result f xs = OK ys -> length ys = length xs.
Proof.
  revert ys. induction xs as [|x rest IH]; simpl; intros ys H.
  - injection H as <-. reflexivity.
  - destruct (f x); [|discriminate].
    destruct (map_result f rest) as [ys'|]; [|discriminate].
    injection H as <-. simpl. now rewrite (IH ys').
Qed.

Lemma map_result_map {A B C} (f : A -> result B) (g : B -> C) (g' : A -> C)
      (xs : list A) (ys : list B) :
  (forall x y, f x = OK y -> g y = g' x) ->
  map_result f xs = OK ys -> map g ys = map g' xs.
Proof.
  intros Hfg. revert ys. induction xs as [|x rest IH]; simpl; intros ys H.
  - injection H as <-. reflexivity.
  - destruct (f x) eqn:Ex; [|discriminate].
    destruct (map_result f rest) as [ys'|]; [|discriminate].
    injection H as <-. simpl. now rewrite (Hfg x _ Ex), (IH ys').
Qed.

(** ** The two listings *)

Lemma load_post_entry_id (h : heap.t) (p : post.t) (e : post_entry.t) :
  storage.load_post_entry h p = OK e -> post_entry.id e = post.id p.
Proof.
  unfold storage.load_post_entry. intros H.
  destruct (load_optimized_string h (post.user p)); [|discriminate].
  destruct (load_optimized_string h (post.title p)); [|discriminate].
  injection H as <-. reflexivity.
Qed.

(** [fetch_frontpage] returns at most [max_posts] entries: the last
    [max_posts] posts of the tree, in key order. *)
Lemma fetch_frontpage_entries (max_posts : nat) (store : storage.anchor)
      (r : frontpage_result.t) :
  storage.fetch_frontpage max_posts store = OK r ->
  (length (frontpage_result.entries r) <= max_posts)%nat /\
  map post_entry.id (frontpage_result.entries r)
  = skipn (length (storage.posts store) - max_posts) (btree.keys (storage.posts store)).
Proof.
  unfold storage.fetch_frontpage, btree.seek_max. intros H.
  destruct (map_result _ _) as [entries|] eqn:E; [|discriminate].
  injection H as <-. simpl. split.
  - rewrite (map_result_length _ _ _ E). apply collect_then_reverse_length.
  - rewrite (map_result_map _ post_entry.id post.id _ _
               (load_post_entry_id (storage.strings store)) E).
    rewrite collect_then_reverse. unfold btree.keys. now rewrite skipn_map.
Qed.

(** C1, at the input where the code departs from it.  After two posts have
    been created, [fetch_frontpage(10)] returns both entries with the post of
    id 1 first and the post of id 2, the newest, last; [fetch_frontpage(1)]
    returns the newest alone. *)
Theorem fetch_frontpage_two_posts :
  fst (database.fetch_frontpage 10 (after two_posts))
  = OK (frontpage_result.mk
          [ post_entry.mk 1 100 (bytes "alice") (bytes "hi");
            post_entry.mk 2 101 (bytes "bob") (bytes "second") ]) /\
  fst (database.fetch_frontpage 1 (after two_posts))
  = OK (frontpage_result.mk
          [ post_entry.mk 2 101 (bytes "bob") (bytes "second") ]).
Proof.
  split; vm_compute; reflexivity.
Qed.

Lemma load_comment_entry_created_at (h : heap.t) (c : comment.t) (e : comment_entry.t) :
  storage.load_comment_entry h c = OK e ->
  comment_entry.created_at e = comment.created_at c.
Proof.
  unfold storage.load_comment_entry. intros H.
  destruct (load_optimized_string h (comment.user c)); [|discriminate].
  destruct (load_string h (comment.content c)); [|discriminate].
  injection H as <-. reflexivity.
Qed.

(** [fetch_post] returns at most [max_comments] comments: the last
    [max_comments] comments of the post, in the order they were appended. *)
Lemma fetch_post_comments (post_id : Z) (max_comments : nat) (store : storage.anchor)
      (r : post_result.t) :
  storage.fetch_post post_id max_comments store = OK r ->
  exists c,
    btree.find (storage.posts store) post_id = Some c /\
    (length (post_result.comments r) <= max_comments)%nat /\
    map comment_entry.created_at (post_result.comments r)
    = skipn (length (post.comments (cursor.here c)) - max_comments)
            (map comment.created_at (post.comments (cursor.here c))).
Proof.
  unfold storage.fetch_post.
  destruct (btree.find (storage.posts store) post_id) as [c|]; [|discriminate].
  simpl. unfold comment_list.seek_last, cursor.get. simpl.
  destruct (load_optimized_string _ (post.user _)); [|discriminate].
  destruct (load_optimized_string _ (post.title _)); [|discriminate].
  destruct (load_string _ _); [|discriminate].
  destruct (map_result _ _) as [entries|] eqn:E; [|discriminate].
  intros H. injection H as <-. simpl.
  exists c. split; [reflexivity|]. split.
  - rewrite (map_result_length _ _ _ E). apply collect_then_reverse_length.
  - rewrite (map_result_map _ comment_entry.created_at comment.created_at _ _
               (load_comment_entry_created_at (storage.strings store)) E).
    rewrite collect_then_reverse. now rewrite skipn_map.
Qed.

(** C2, at the input where the code departs from it.  After the comments of
    carol and then of dave have been appended to post 2, [fetch_post(2, 10)]
    lists carol's comment first and dave's, the most recent, last;
    [fetch_post(2, 1)] lists dave's alone. *)
Theorem fetch_post_two_comments :
  (exists r,
     fst (database.fetch_post 2 10 (after two_comments)) = OK r /\
     post_result.comments r
     = [ comment_entry.mk 102 (bytes "carol") (bytes "nice");
         comment_entry.mk 103 (bytes "dave") (bytes "+1") ]) /\
  (exists r,
     fst (database.fetch_post 2 1 (after two_comments)) = OK r /\
     post_result.comments r
     = [ comment_entry.mk 103 (bytes "dave") (bytes "+1") ]).
Proof.
  split; eexists; (split; [vm_compute; reflexivity|reflexivity]).
Qed.

(** ** The post tree *)

Lemma find_from_none (before : list post.t) (tree : btree.t) (key : Z) :
  btree.find_from before tree key = None <-> ~ In key (btree.keys tree).
Proof.
  revert before. induction tree as [|p rest IH]; intros before; simpl.
  - split; [intros _ []|reflexivity].
  - destruct (Z.eqb_spec (post.id p) key) as [Heq|Hne].
    + split; [discriminate|]. intros Hno. exfalso. apply Hno. now left.
    + rewrite IH. split; intros Hno.
      * intros [Heq|Hin]; [now apply Hne|now apply Hno].
      * intros Hin. apply Hno. now right.
Qed.

Lemma find_none (tree : btree.t) (key : Z) :
  btree.find tree key = None <-> ~ In key (btree.keys tree).
Proof. apply find_from_none. Qed.

(** A cursor returned by [find] stands on an entry with the key asked for,
    inside the tree that was searched. *)
Lemma find_from_some (before : list post.t) (tree : btree.t) (key : Z)
      (c : cursor.t post.t) :
  btree.find_from before tree key = Some c ->
  post.id (cursor.here c) = key /\ cursor.container c = rev before ++ tree.
Proof.
  revert before. induction tree as [|p rest IH]; intros before; simpl; [discriminate|].
  destruct (Z.eqb_spec (post.id p) key) as [Heq|Hne].
  - intros H. injection H as <-. simpl. split; [exact Heq|reflexivity].
  - intros H. apply IH in H. destruct H as [Hk Hc]. split; [exact Hk|].
    rewrite Hc. simpl. now rewrite <- app_assoc.
Qed.

Lemma find_some (tree : btree.t) (key : Z) (c : cursor.t post.t) :
  btree.find tree key = Some c ->
  post.id (cursor.here c) = key /\ cursor.container c = tree.
Proof. apply find_from_some. Qed.

(** Writing a post with the same id through a cursor keeps the keys. *)
Lemma keys_after_set (c : cursor.t post.t) (v : post.t) :
  post.id v = post.id (cursor.here c) ->
  btree.keys (cursor.set c v) = btree.keys (cursor.container c).
Proof.
  intros Hid. unfold btree.keys, cursor.set, cursor.container.
  rewrite !map_app. simpl. now rewrite Hid.
Qed.

Lemma length_after_set (c : cursor.t post.t) (v : post.t) :
  length (cursor.set c v) = length (cursor.container c).
Proof.
  unfold cursor.set, cursor.container. rewrite !length_app. reflexivity.
Qed.

(** A post whose id is above every key is inserted last. *)
Lemma insert_above (v : post.t) (tree : btree.t) :
  (forall key, In key (btree.keys tree) -> key < post.id v) ->
  btree.insert v tree = tree ++ [v].
Proof.
  induction tree as [|p rest IH]; simpl; intros Hall; [reflexivity|].
  assert (Hp : post.id p < post.id v) by (apply Hall; now left).
  destruct (Z.ltb_spec (post.id v) (post.id p)); [lia|].
  destruct (Z.eqb_spec (post.id v) (post.id p)); [lia|].
  f_equal. apply IH. intros key Hin. apply Hall. now right.
Qed.


(** ** Not found (C8) *)

Lemma create_comment_found (post_id : Z) (user content : str) (now : Z)
      (store : storage.anchor) (c : cursor.t post.t) :
  btree.find (storage.posts store) post_id = Some c ->
  is_not_found (fst (storage.create_comment post_id user content now store)) = false.
Proof.
  intros Hf. unfold storage.create_comment, storage.bind, storage.get_posts.
  rewrite Hf. unfold storage.lift, storage.current_timestamp.
  destruct (now <? 0); [reflexivity|].
  unfold storage.on_strings. simpl.
  unfold store_optimized_string.
  destruct (size user >? u32_max); [reflexivity|].
  destruct (length user <=? 15)%nat; reflexivity.
Qed.

Lemma create_comment_not_found (post_id : Z) (user content : str) (now : Z)
      (store : storage.anchor) :
  btree.find (storage.posts store) post_id = None ->
  storage.create_comment post_id user content now store
  = (Throw (not_found_error "Post not found."), store).
Proof.
  intros Hf. unfold storage.create_comment, storage.bind, storage.get_posts.
  now rewrite Hf.
Qed.

(** The loads throw nothing but [bad_reference]. *)
Lemma load_string_throws (h : heap.t) (ref : heap.reference) (e : exn) :
  load_string h ref = Throw e -> e = bad_reference.
Proof.
  unfold load_string. destruct (heap.load h ref); [discriminate|].
  intros H. now injection H as <-.
Qed.

Lemma load_optimized_string_throws (h : heap.t) (o : optimized_string) (e : exn) :
  load_optimized_string h o = Throw e -> e = bad_reference.
Proof.
  destruct o; simpl; [discriminate|apply load_string_throws].
Qed.

Lemma load_comment_entry_throws (h : heap.t) (c : comment.t) (e : exn) :
  storage.load_comment_entry h c = Throw e -> e = bad_reference.
Proof.
  unfold storage.load_comment_entry.
  destruct (load_optimized_string h (comment.user c)) eqn:E1.
  - destruct (load_string h (comment.content c)) eqn:E2; [discriminate|].
    intros H. injection H as <-. exact (load_string_throws _ _ _ E2).
  - intros H. injection H as <-. exact (load_optimized_string_throws _ _ _ E1).
Qed.

Lemma map_result_throws {A B} (f : A -> result B) (xs : list A) (e : exn) :
  (forall x e', f x = Throw e' -> e' = bad_reference) ->
  map_result f xs = Throw e -> e = bad_reference.
Proof.
  intros Hf. induction xs as [|x rest IH]; simpl; [discriminate|].
  destruct (f x) eqn:Ex.
  - destruct (map_result f rest); [discriminate|].
    intros H. injection H as <-. now apply IH.
  - intros H. injection H as <-. exact (Hf x _ Ex).
Qed.

Lemma fetch_post_found (post_id : Z) (max_comments : nat)
      (store : storage.anchor) (c : cursor.t post.t) :
  btree.find (storage.posts store) post_id = Some c ->
  is_not_found (storage.fetch_post post_id max_comments store) = false.
Proof.
  intros Hf. unfold storage.fetch_post. rewrite Hf. simpl.
  destruct (load_optimized_string _ (post.user _)) eqn:E1;
    [|now rewrite (load_optimized_string_throws _ _ _ E1)].
  destruct (load_optimized_string _ (post.title _)) eqn:E2;
    [|now rewrite (load_optimized_string_throws _ _ _ E2)].
  destruct (load_string _ _) eqn:E3;
    [|now rewrite (load_string_throws _ _ _ E3)].
  destruct (map_result _ _) eqn:E4; [reflexivity|].
  now rewrite (map_result_throws _ _ _ (load_comment_entry_throws _) E4).
Qed.

Lemma fetch_post_not_found (post_id : Z) (max_comments : nat) (store : storage.anchor) :
  btree.find (storage.posts store) post_id = None ->
  storage.fetch_post post_id max_comments store = Throw (not_found_error "Post not found.").
Proof.
  intros Hf. unfold storage.fetch_post. now rewrite Hf.
Qed.

Lemma run_in_transaction_throw {A} (fn : storage.M A) (db : database.t) :
  throws (fst (database.run_in_transaction fn db)) = true ->
  snd (database.run_in_transaction fn db) = db.
Proof.
  unfold database.run_in_transaction.
  destruct (database.m_open db); simpl; [|reflexivity].
  destruct (fn (database.committed db)) as [[a|e] s']; simpl; [discriminate|reflexivity].
Qed.

(** C8.  [create_comment] and [fetch_post] throw [not_found_error] exactly
    when the tree holds no post with the id they are given.  When they do,
    the store is as it was, and so is the database after the public
    operation. *)
Theorem not_found_iff_no_such_post :
  forall (store : storage.anchor) (post_id : Z) (user content : str) (now : Z)
         (max_comments : nat),
    (is_not_found (fst (storage.create_comment post_id user content now store)) = true
     <-> ~ In post_id (btree.keys (storage.posts store))) /\
    (is_not_found (storage.fetch_post post_id max_comments store) = true
     <-> ~ In post_id (btree.keys (storage.posts store))) /\
    (is_not_found (fst (storage.create_comment post_id user content now store)) = true
     -> snd (storage.create_comment post_id user content now store) = store) /\
    (forall db : database.t,
        (is_not_found (fst (database.create_comment post_id user content now db)) = true
         -> snd (database.create_comment post_id user content now db) = db) /\
        (is_not_found (fst (database.fetch_post post_id max_comments db)) = true
         -> snd (database.fetch_post post_id max_comments db) = db) /\
        (database.m_open db = true -> database.committed db = store ->
         (is_not_found (fst (database.create_comment post_id user content now db)) = true
          <-> ~ In post_id (btree.keys (storage.posts store))) /\
         (is_not_found (fst (database.fetch_post post_id max_comments db)) = true
          <-> ~ In post_id (btree.keys (storage.posts store))))).
Proof.
  intros store post_id user content now max_comments.
  assert (Hc : is_not_found (fst (storage.create_comment post_id user content now store)) = true
               <-> ~ In post_id (btree.keys (storage.posts store))).
  { rewrite <- find_none.
    destruct (btree.find (storage.posts store) post_id) as [c|] eqn:Hf.
    - rewrite (create_comment_found _ _ _ _ _ c Hf). split; discriminate.
    - rewrite create_comment_not_found by exact Hf. simpl. split; reflexivity. }
  assert (Hp : is_not_found (storage.fetch_post post_id max_comments store) = true
               <-> ~ In post_id (btree.keys (storage.posts store))).
  { rewrite <- find_none.
    destruct (btree.find (storage.posts store) post_id) as [c|] eqn:Hf.
    - rewrite (fetch_post_found _ _ _ c Hf). split; discriminate.
    - rewrite fetch_post_not_found by exact Hf. simpl. split; reflexivity. }
  split; [exact Hc|]. split; [exact Hp|]. split.
  - intros Hnf. apply Hc, find_none in Hnf.
    now rewrite create_comment_not_found.
  - intros db. split; [|split].
    + unfold database.create_comment. intros Hnf. apply run_in_transaction_throw.
      destruct (fst (database.run_in_transaction _ db));
        [discriminate|reflexivity].
    + unfold database.fetch_post. intros Hnf. apply run_in_transaction_throw.
      destruct (fst (database.run_in_transaction _ db));
        [discriminate|reflexivity].
    + intros Hopen Hstore.
      unfold database.create_comment, database.fetch_post, database.run_in_transaction.
      rewrite Hopen, Hstore. simpl. split.
      * rewrite <- Hc.
        destruct (storage.create_comment post_id user content now store) as [[a|e] s'];
          simpl; reflexivity.
      * rewrite <- Hp.
        destruct (storage.fetch_post post_id max_comments store) as [a|e];
          simpl; reflexivity.
Qed.

(** ** Transactions (C5) *)

(** C5.  When the function run inside [run_in_transaction] throws, whatever
    it has done to the store by then, the driver throws the same exception
    and the database is exactly what it was before. *)
Theorem run_in_transaction_rolls_back :
  forall (A : Type) (fn : storage.M A) (db : database.t) (e : exn)
         (dirty : storage.anchor),
    database.m_open db = true ->
    fn (database.committed db) = (Throw e, dirty) ->
    database.run_in_transaction fn db = (Throw e, db).
Proof.
  intros A fn db e dirty Hopen Hfn.
  unfold database.run_in_transaction. now rewrite Hopen, Hfn.
Qed.

(** The rollback law: [create_post] with a fault injected after its last
    step.  The function has inserted the post and advanced the counter when
    it throws; the database shows neither. *)
Lemma run_in_transaction_rolls_back_witness :
  let fn := then_throw (storage.create_post (bytes "alice") (bytes "hi") (bytes "hello") 100)
                       (runtime_error "injected") in
  let dirty := snd (fn (database.committed database.fresh)) in
  storage.next_post_id dirty = 2 /\
  length (storage.posts dirty) = 1%nat /\
  database.run_in_transaction fn database.fresh
  = (Throw (runtime_error "injected"), database.fresh).
Proof.
  intros fn dirty.
  split; [reflexivity|]. split; [reflexivity|].
  apply (run_in_transaction_rolls_back Z fn database.fresh
           (runtime_error "injected") dirty); reflexivity.
Defined.


(** ** [create_post] and the length of its arguments (C9) *)

Lemma gtb_false_le (a b : Z) : (a >? b) = false <-> a <= b.
Proof. destruct (Z.gtb_spec a b); split; (lia || discriminate || reflexivity). Qed.

Lemma gtb_true_gt (a b : Z) : (a >? b) = true <-> a > b.
Proof. destruct (Z.gtb_spec a b); split; (lia || discriminate || reflexivity). Qed.

(** The outcome of [create_post], case by case, in the order of the checks
    in the code. *)
Lemma create_post_outcome (user title content : str) (now : Z) (store : storage.anchor) :
  fst (storage.create_post user title content now store) =
    if storage.next_post_id store =? 0 then Throw (database_error "ID space exhausted.")
    else if now <? 0 then Throw (runtime_error "time() failed.")
    else if size user >? u32_max then Throw (database_error "String is too large.")
    else if size title >? u32_max then Throw (database_error "String is too large.")
    else OK (storage.next_post_id store).
Proof.
  unfold storage.create_post, storage.bind, storage.get_posts, storage.get_next_post_id.
  destruct (storage.next_post_id store =? 0); [reflexivity|].
  unfold storage.lift, storage.current_timestamp.
  destruct (now <? 0); [reflexivity|].
  unfold storage.on_strings, store_optimized_string. simpl.
  destruct (size user >? u32_max); [reflexivity|].
  destruct (length user <=? 15)%nat; simpl;
    (destruct (size title >? u32_max); [reflexivity|]);
    destruct (length title <=? 31)%nat; reflexivity.
Qed.

(** C9.  [create_post] throws "String is too large." exactly when the id
    space is not exhausted, the clock is sane and [user] or [title] is longer
    than 2^32 - 1 bytes; what it returns or throws is the same for every
    [content]; and [store_string], which stores [content], always returns a
    reference, under which the heap then holds [content]. *)
Theorem create_post_never_checks_content :
  forall (user title content : str) (now : Z) (store : storage.anchor),
    (fst (storage.create_post user title content now store)
     = Throw (database_error "String is too large.")
     <-> storage.next_post_id store <> 0 /\ 0 <= now /\
         (size user > u32_max \/ size title > u32_max)) /\
    (forall content' : str,
        fst (storage.create_post user title content' now store)
        = fst (storage.create_post user title content now store)) /\
    (forall h : heap.t,
        heap.load (snd (store_string h content)) (fst (store_string h content))
        = Some content).
Proof.
  intros user title content now store. split; [|split].
  - rewrite create_post_outcome.
    destruct (Z.eqb_spec (storage.next_post_id store) 0) as [H0|H0].
    { split; [discriminate|]. intros [Hn _]. contradiction. }
    destruct (Z.ltb_spec now 0) as [Ht|Ht].
    { split; [discriminate|]. intros [_ [Hn _]]. lia. }
    destruct (Z.gtb_spec (size user) u32_max) as [Hu|Hu].
    { split; [|reflexivity]. intros _. repeat split; try assumption. left. lia. }
    destruct (Z.gtb_spec (size title) u32_max) as [Hti|Hti].
    { split; [|reflexivity]. intros _. repeat split; try assumption. right. lia. }
    split; [discriminate|]. intros [_ [_ [H|H]]]; lia.
  - intros content'. now rewrite !create_post_outcome.
  - intros h. apply load_after_allocate.
Qed.

(** ** Ids *)

Lemma count_from_length (first : Z) (count : nat) :
  length (count_from first count) = count.
Proof.
  revert first. induction count as [|n IH]; intros first; simpl; [reflexivity|].
  now rewrite IH.
Qed.

Lemma count_from_snoc (first : Z) (count : nat) :
  count_from first (S count) = count_from first count ++ [first + Z.of_nat count].
Proof.
  revert first. induction count as [|n IH]; intros first.
  - simpl. now rewrite Z.add_0_r.
  - change (count_from first (S (S n))) with (first :: count_from (first + 1) (S n)).
    rewrite IH.
    change (count_from first (S n)) with (first :: count_from (first + 1) n).
    replace (first + 1 + Z.of_nat n) with (first + Z.of_nat (S n)) by lia.
    reflexivity.
Qed.

Lemma count_from_app (first : Z) (n m : nat) :
  count_from first (n + m) = count_from first n ++ count_from (first + Z.of_nat n) m.
Proof.
  revert first. induction n as [|n IH]; intros first.
  - simpl. now rewrite Z.add_0_r.
  - change (count_from first (S n + m))
      with (first :: count_from (first + 1) (n + m)).
    change (count_from first (S n)) with (first :: count_from (first + 1) n).
    rewrite IH.
    replace (first + 1 + Z.of_nat n) with (first + Z.of_nat (S n)) by lia.
    reflexivity.
Qed.

Lemma count_from_In (first : Z) (count : nat) (x : Z) :
  In x (count_from first count) <-> first <= x < first + Z.of_nat count.
Proof.
  revert first. induction count as [|n IH]; intros first.
  - simpl. lia.
  - change (count_from first (S n)) with (first :: count_from (first + 1) n).
    simpl In. rewrite IH. lia.
Qed.

Lemma count_from_NoDup (first : Z) (count : nat) :
  NoDup (count_from first count).
Proof.
  revert first. induction count as [|n IH]; intros first; simpl; constructor.
  - rewrite count_from_In. lia.
  - apply IH.
Qed.


(** ** The store between transactions *)

Lemma initial_well_formed : well_formed storage.initial.
Proof.
  unfold well_formed. simpl. repeat split.
Qed.

Lemma load_string_extended (h ext : heap.t) (ref : heap.reference) (s : str) :
  load_string h ref = OK s -> load_string (h ++ ext) ref = OK s.
Proof.
  unfold load_string, heap.load.
  destruct (nth_error h ref) as [blob|] eqn:E; [|discriminate].
  intros H. rewrite nth_error_app1 by (apply nth_error_Some; congruence).
  now rewrite E.
Qed.

Lemma load_optimized_string_extended (h ext : heap.t) (o : optimized_string) (s : str) :
  load_optimized_string h o = OK s -> load_optimized_string (h ++ ext) o = OK s.
Proof.
  destruct o; simpl; [trivial|apply load_string_extended].
Qed.

(** A successful [store_optimized_string] only ever appends to the heap, and
    what it returns decodes, over that heap, as [store_then_load] says. *)
Lemma store_optimized_string_ok (Capacity : nat) (h h' : heap.t) (s : str)
      (o : optimized_string) :
  store_optimized_string Capacity h s = (OK o, h') ->
  size s <= u32_max /\
  (exists ext, h' = h ++ ext) /\
  load_optimized_string h' o = store_then_load Capacity h s.
Proof.
  intros H. unfold store_then_load. rewrite H.
  unfold store_optimized_string in H.
  destruct (Z.gtb_spec (size s) u32_max) as [Hbig|Hsz]; [discriminate|].
  split; [exact Hsz|]. split; [|reflexivity].
  destruct (length s <=? Capacity)%nat.
  - injection H as _ <-. exists []. now rewrite app_nil_r.
  - simpl in H. injection H as _ <-. now exists [s].
Qed.

(** What a successful [create_post] has checked and what it leaves. *)
Lemma create_post_ok (user title content : str) (now : Z) (store store' : storage.anchor)
      (id : Z) :
  storage.create_post user title content now store = (OK id, store') ->
  id = storage.next_post_id store /\ id <> 0 /\ 0 <= now /\
  exists user' title' h1 h2,
    store_optimized_string 15 (storage.strings store) user = (OK user', h1) /\
    store_optimized_string 31 h1 title = (OK title', h2) /\
    store' = storage.mk_anchor
               ((id + 1) mod u64_modulus)
               (btree.insert (post.mk id now user' title' (length h2) comment_list.empty)
                             (storage.posts store))
               (h2 ++ [content]).
Proof.
  unfold storage.create_post, storage.bind, storage.get_posts, storage.get_next_post_id.
  destruct (Z.eqb_spec (storage.next_post_id store) 0) as [H0|H0]; [discriminate|].
  unfold storage.lift, storage.current_timestamp.
  destruct (Z.ltb_spec now 0) as [Ht|Ht]; [discriminate|].
  unfold storage.on_strings. simpl.
  destruct (store_optimized_string 15 (storage.strings store) user) as [[user'|e] h1] eqn:Eu;
    [|discriminate].
  simpl.
  destruct (store_optimized_string 31 h1 title) as [[title'|e] h2] eqn:Et;
    [|discriminate].
  simpl. intros H. injection H as <- <-.
  repeat split; try assumption.
  exists user', title', h1, h2. repeat split; assumption.
Qed.

(** The next id is the number of posts plus one for as long as it is not 0. *)
Lemma next_id_not_wrapped (n : Z) :
  0 <= n < u64_modulus ->
  (n + 1) mod u64_modulus <> 0 ->
  (n + 1) mod u64_modulus = n + 1 /\ n + 1 < u64_modulus.
Proof.
  intros Hn Hnz.
  assert (Hlt : n + 1 < u64_modulus).
  { destruct (Z.eq_dec (n + 1) u64_modulus) as [Heq|Hne]; [|lia].
    exfalso. apply Hnz. rewrite Heq. apply Z.mod_same. discriminate. }
  split; [apply Z.mod_small; lia|exact Hlt].
Qed.

Lemma well_formed_keys_below (store : storage.anchor) (key : Z) :
  well_formed store ->
  In key (btree.keys (storage.posts store)) ->
  1 <= key <= Z.of_nat (length (storage.posts store)).
Proof.
  intros [Hkeys _] Hin. rewrite Hkeys, count_from_In in Hin. lia.
Qed.

(** A successful [create_post] on a well-formed store returns the number of
    posts plus one, appends the new post and leaves a well-formed store. *)
Lemma create_post_well_formed (user title content : str) (now : Z)
      (store store' : storage.anchor) (id : Z) :
  well_formed store ->
  storage.create_post user title content now store = (OK id, store') ->
  id = Z.of_nat (length (storage.posts store)) + 1 /\
  (exists new_post, post.id new_post = id /\
                    storage.posts store' = storage.posts store ++ [new_post]) /\
  well_formed store'.
Proof.
  intros Hwf Hcp.
  destruct (create_post_ok _ _ _ _ _ _ _ Hcp)
    as [Hid [Hnz [_ [user' [title' [h1 [h2 [_ [_ Hs']]]]]]]]].
  pose proof Hwf as [Hkeys [Hn Hnext]].
  rewrite Hnext in Hid. rewrite Hid in Hnz.
  destruct (next_id_not_wrapped (Z.of_nat (length (storage.posts store))))
    as [Hmod Hlt]; [lia|exact Hnz|].
  rewrite Hmod in Hid.
  set (new_post := post.mk id now user' title' (length h2) comment_list.empty) in Hs'.
  assert (Hins : btree.insert new_post (storage.posts store)
                 = storage.posts store ++ [new_post]).
  { apply insert_above. intros key Hin.
    apply (well_formed_keys_below _ _ Hwf) in Hin. simpl. lia. }
  rewrite Hins in Hs'. subst store'.
  split; [exact Hid|]. split.
  - exists new_post. split; reflexivity.
  - unfold well_formed. simpl.
    rewrite length_app. simpl. rewrite Nat.add_1_r.
    split; [|split].
    + unfold btree.keys in *. rewrite map_app, Hkeys, count_from_snoc. simpl.
      now rewrite Hid, Z.add_comm.
    + lia.
    + rewrite Hid. f_equal. lia.
Qed.

(** A successful [create_comment] touches neither the counter nor the keys
    of the tree. *)
Lemma create_comment_keeps_ids (post_id : Z) (user content : str) (now : Z)
      (store store' : storage.anchor) :
  storage.create_comment post_id user content now store = (OK tt, store') ->
  storage.next_post_id store' = storage.next_post_id store /\
  btree.keys (storage.posts store') = btree.keys (storage.posts store) /\
  length (storage.posts store') = length (storage.posts store).
Proof.
  unfold storage.create_comment, storage.bind, storage.get_posts.
  destruct (btree.find (storage.posts store) post_id) as [c|] eqn:Hf; [|discriminate].
  unfold storage.lift, storage.current_timestamp.
  destruct (now <? 0); [discriminate|].
  unfold storage.on_strings. simpl.
  destruct (store_optimized_string 15 (storage.strings store) user) as [[user'|e] h1];
    [|discriminate].
  simpl. intros H. injection H as <-. simpl.
  destruct (find_some _ _ _ Hf) as [_ Hc].
  split; [reflexivity|]. split.
  - rewrite keys_after_set by reflexivity. now rewrite Hc.
  - rewrite length_after_set. now rewrite Hc.
Qed.

Lemma create_comment_well_formed (post_id : Z) (user content : str) (now : Z)
      (store store' : storage.anchor) :
  well_formed store ->
  storage.create_comment post_id user content now store = (OK tt, store') ->
  well_formed store'.
Proof.
  intros [Hkeys [Hn Hnext]] Hcc.
  destruct (create_comment_keeps_ids _ _ _ _ _ _ Hcc) as [Hnext' [Hkeys' Hlen']].
  unfold well_formed. rewrite Hnext', Hkeys', Hlen'. repeat split; assumption.
Qed.

(** The operations other than [create_post] leave the counter and the keys
    alone, on any database. *)
Lemma serve_keeps_ids (q : request) (db : database.t) :
  is_create_post q = false ->
  storage.next_post_id (database.committed (snd (serve q db)))
  = storage.next_post_id (database.committed db) /\
  btree.keys (storage.posts (database.committed (snd (serve q db))))
  = btree.keys (storage.posts (database.committed db)) /\
  length (storage.posts (database.committed (snd (serve q db))))
  = length (storage.posts (database.committed db)).
Proof.
  destruct q; simpl; try discriminate; intros _.
  - unfold database.create_comment, database.run_in_transaction.
    destruct (database.m_open db); simpl; [|repeat split].
    destruct (storage.create_comment post_id user content now (database.committed db))
      as [[[]|e] store'] eqn:Hcc; simpl; [|repeat split].
    exact (create_comment_keeps_ids _ _ _ _ _ _ Hcc).
  - unfold database.fetch_frontpage, database.run_in_transaction.
    destruct (database.m_open db); simpl; [|repeat split].
    destruct (storage.fetch_frontpage max_posts (database.committed db));
      simpl; repeat split.
  - unfold database.fetch_post, database.run_in_transaction.
    destruct (database.m_open db); simpl; [|repeat split].
    destruct (storage.fetch_post post_id max_comments (database.committed db));
      simpl; repeat split.
  - unfold database.dump, database.run_in_transaction.
    destruct (database.m_open db); simpl; repeat split.
  - unfold database.finish.
    destruct (database.m_open db); simpl; repeat split.
Qed.

Lemma serve_well_formed (q : request) (db : database.t) :
  well_formed (database.committed db) ->
  well_formed (database.committed (snd (serve q db))).
Proof.
  intros Hwf. destruct (is_create_post q) eqn:Hq.
  - destruct q; try discriminate. simpl.
    unfold database.create_post, database.run_in_transaction.
    destruct (database.m_open db); simpl; [|exact Hwf].
    destruct (storage.create_post user title content now (database.committed db))
      as [[id|e] store'] eqn:Hcp; simpl; [|exact Hwf].
    exact (proj2 (proj2 (create_post_well_formed _ _ _ _ _ _ _ Hwf Hcp))).
  - destruct (serve_keeps_ids q db Hq) as [Hnext [Hkeys Hlen]].
    destruct Hwf as [Hk [Hn Hnx]].
    unfold well_formed. rewrite Hnext, Hkeys, Hlen. repeat split; assumption.
Qed.

Lemma serve_all_well_formed (qs : list request) (db : database.t) :
  well_formed (database.committed db) ->
  well_formed (database.committed (snd (serve_all qs db))).
Proof.
  revert db. induction qs as [|q rest IH]; intros db Hwf; simpl; [exact Hwf|].
  destruct (serve q db) as [r db'] eqn:Hq.
  specialize (IH db'). destruct (serve_all rest db') as [rs db''].
  simpl in *. apply IH.
  pose proof (serve_well_formed q db Hwf) as H. now rewrite Hq in H.
Qed.

Lemma after_well_formed (qs : list request) :
  well_formed (database.committed (after qs)).
Proof.
  apply serve_all_well_formed, initial_well_formed.
Qed.

(** ** The ids [create_post] returns (C4) *)


Lemma serve_other_created_ids (q : request) (db : database.t) (rs : list response) :
  is_create_post q = false ->
  created_ids (fst (serve q db) :: rs) = created_ids rs.
Proof.
  destruct q; simpl; try discriminate; intros _.
  - now destruct (database.create_comment post_id user content now db).
  - now destruct (database.fetch_frontpage max_posts db).
  - now destruct (database.fetch_post post_id max_comments db).
  - now destruct (database.dump db).
  - now destruct (database.finish db).
Qed.



(** ** Reading back a post that was just created (C7) *)





(** ** The counter and the ids in the tree (C10) *)

(** On an open database whose counter is not 0, creating an empty post at
    time 0 succeeds. *)
Lemma serve_empty_post (db : database.t) :
  well_formed (database.committed db) ->
  database.m_open db = true ->
  Z.of_nat (length (storage.posts (database.committed db))) + 1 < u64_modulus ->
  let db' := snd (serve (CreatePost [] [] [] 0) db) in
  database.m_open db' = true /\
  length (storage.posts (database.committed db'))
  = S (length (storage.posts (database.committed db))).
Proof.
  intros Hwf Hopen Hroom db'.
  pose proof (create_post_outcome [] [] [] 0 (database.committed db)) as Hout.
  pose proof Hwf as [_ [_ Hnext]].
  rewrite Z.mod_small in Hnext by lia.
  destruct (Z.eqb_spec (storage.next_post_id (database.committed db)) 0) as [H0|_]; [lia|].
  simpl in Hout.
  subst db'. simpl. unfold database.create_post, database.run_in_transaction.
  rewrite Hopen. simpl.
  destruct (storage.create_post [] [] [] 0 (database.committed db))
    as [[id|e] store'] eqn:Hcp; simpl in Hout; [|discriminate].
  simpl. split; [reflexivity|].
  destruct (create_post_well_formed _ _ _ _ _ _ _ Hwf Hcp)
    as [_ [[new_post [_ Hposts]] _]].
  rewrite Hposts, length_app. simpl. lia.
Qed.

Lemma serve_empty_posts (count : nat) (db : database.t) :
  well_formed (database.committed db) ->
  database.m_open db = true ->
  Z.of_nat (length (storage.posts (database.committed db))) + Z.of_nat count
  < u64_modulus ->
  length (storage.posts
            (database.committed (snd (serve_all (repeat (CreatePost [] [] [] 0) count) db))))
  = (length (storage.posts (database.committed db)) + count)%nat.
Proof.
  revert db. induction count as [|count IH]; intros db Hwf Hopen Hroom.
  - simpl. lia.
  - change (repeat (CreatePost [] [] [] 0) (S count))
      with (CreatePost [] [] [] 0 :: repeat (CreatePost [] [] [] 0) count).
    cbv beta iota delta [serve_all]; fold serve_all.
    destruct (serve_empty_post db Hwf Hopen ltac:(lia)) as [Hopen' Hlen'].
    pose proof (serve_well_formed (CreatePost [] [] [] 0) db Hwf) as Hwf'.
    destruct (serve (CreatePost [] [] [] 0) db) as [r db'].
    cbv beta iota delta [snd] in Hopen', Hlen', Hwf'.
    specialize (IH db' Hwf' Hopen' ltac:(lia)).
    destruct (serve_all (repeat (CreatePost [] [] [] 0) count) db') as [rs db''].
    cbv beta iota delta [snd] in IH |- *. lia.
Qed.

(** C10, the counterexample.  After 2^64 - 1 posts have been created the
    counter has wrapped: [next_post_id] is 0 and not at least 1. *)
Lemma next_post_id_wraps_to_zero :
  storage.next_post_id (database.committed (after exhausting)) = 0 /\
  ~ (1 <= storage.next_post_id (database.committed (after exhausting))).
Proof.
  assert (Hzero : storage.next_post_id (database.committed (after exhausting)) = 0).
  { destruct (after_well_formed exhausting) as [_ [_ Hnext]].
    rewrite Hnext. unfold after, exhausting.
    rewrite serve_empty_posts.
    - change (length (storage.posts (database.committed database.fresh))) with 0%nat.
      rewrite Nat.add_0_l, Z2Nat.id by (unfold u64_modulus; lia).
      replace (u64_modulus - 1 + 1) with u64_modulus by lia.
      apply Z.mod_same. discriminate.
    - exact initial_well_formed.
    - reflexivity.
    - change (length (storage.posts (database.committed database.fresh))) with 0%nat.
      rewrite Z2Nat.id by (unfold u64_modulus; lia). lia. }
  split; [exact Hzero|]. rewrite Hzero. lia.
Qed.

(** C10 (as amended).  Whatever requests a fresh database has served, with
    [n] the number of posts in the tree: the counter is a [u64]; the ids in
    the tree are 1, ..., n in this order, each once; n is below 2^64 and the
    counter is n + 1 modulo 2^64.  So while the counter is not 0 it is at
    least 1 and the ids are those from 1 to the counter minus one, and when
    it is 0 the ids are all of 1, ..., 2^64 - 1.  A request other than
    [create_post] changes neither the counter nor the ids. *)
Theorem post_ids_invariant :
  forall qs : list request,
    let store := database.committed (after qs) in
    let ids := btree.keys (storage.posts store) in
    let n := length (storage.posts store) in
    0 <= storage.next_post_id store < u64_modulus /\
    ids = count_from 1 n /\
    NoDup ids /\
    Z.of_nat n < u64_modulus /\
    storage.next_post_id store = (Z.of_nat n + 1) mod u64_modulus /\
    (storage.next_post_id store <> 0 ->
     1 <= storage.next_post_id store /\
     forall id, In id ids <-> 1 <= id <= storage.next_post_id store - 1) /\
    (storage.next_post_id store = 0 ->
     forall id, In id ids <-> 1 <= id <= u64_modulus - 1) /\
    (forall q : request,
        is_create_post q = false ->
        let store' := database.committed (snd (serve q (after qs))) in
        storage.next_post_id store' = storage.next_post_id store /\
        btree.keys (storage.posts store') = ids).
Proof.
  intros qs store ids n.
  destruct (after_well_formed qs) as [Hkeys [Hn Hnext]].
  fold store in Hkeys, Hn, Hnext. fold n in Hkeys, Hn, Hnext. fold ids in Hkeys.
  assert (Hpos : 0 < u64_modulus) by reflexivity.
  split; [rewrite Hnext; apply Z.mod_pos_bound; exact Hpos|].
  split; [exact Hkeys|].
  split; [rewrite Hkeys; apply count_from_NoDup|].
  split; [exact Hn|]. split; [exact Hnext|]. split; [|split].
  - intros Hnz. rewrite Hnext in Hnz.
    destruct (next_id_not_wrapped (Z.of_nat n)) as [Hmod _]; [lia|exact Hnz|].
    rewrite Hnext, Hmod. split; [lia|].
    intros id. rewrite Hkeys, count_from_In. lia.
  - intros Hz. rewrite Hnext in Hz.
    assert (Hfull : Z.of_nat n + 1 = u64_modulus).
    { destruct (Z.eq_dec (Z.of_nat n + 1) u64_modulus) as [Heq|Hne]; [exact Heq|].
      rewrite Z.mod_small in Hz by lia. lia. }
    intros id. rewrite Hkeys, count_from_In. lia.
  - intros q Hq store'.
    destruct (serve_keeps_ids q (after qs) Hq) as [Hnext' [Hkeys' _]].
    split; [exact Hnext'|exact Hkeys'].
Qed.

(** ** The front page of a database that was only ever used through its
    public operations *)

Lemma skipn_count_from (first : Z) (count skipped : nat) :
  (skipped <= count)%nat ->
  skipn skipped (count_from first count)
  = count_from (first + Z.of_nat skipped) (count - skipped).
Proof.
  intros Hle.
  replace count with (skipped + (count - skipped))%nat at 1 by lia.
  rewrite count_from_app, skipn_app, count_from_length, Nat.sub_diag.
  rewrite skipn_all2 by (rewrite count_from_length; lia).
  reflexivity.
Qed.

(** With [n] posts in the tree, [fetch_frontpage(k)] lists the ids
    [n - k + 1, ..., n] (all of [1, ..., n] when [k >= n]) in increasing
    order: the newest post is the last entry. *)
Lemma fetch_frontpage_ascending (qs : list request) (max_posts : nat)
      (r : frontpage_result.t) :
  let store := database.committed (after qs) in
  let n := length (storage.posts store) in
  storage.fetch_frontpage max_posts store = OK r ->
  map post_entry.id (frontpage_result.entries r)
  = count_from (Z.of_nat (n - max_posts) + 1) (n - (n - max_posts)).
Proof.
  intros store n Hr.
  destruct (fetch_frontpage_entries _ _ _ Hr) as [_ Hids].
  destruct (after_well_formed qs) as [Hkeys _].
  fold store in Hkeys. rewrite Hids, Hkeys. fold n.
  rewrite skipn_count_from by lia. f_equal. lia.
Qed.

(** * Further properties of the store *)

(** ** No dangling references *)

Lemma resolves_extended (h ext : heap.t) (ref : heap.reference) :
  resolves h ref -> resolves (h ++ ext) ref.
Proof. unfold resolves. rewrite length_app. lia. Qed.

Lemma optimized_resolves_extended (h ext : heap.t) (o : optimized_string) :
  optimized_resolves h o -> optimized_resolves (h ++ ext) o.
Proof. destruct o; simpl; [trivial|apply resolves_extended]. Qed.

Lemma comment_resolves_extended (h ext : heap.t) (c : comment.t) :
  comment_resolves h c -> comment_resolves (h ++ ext) c.
Proof.
  intros [Hu Hc]. split;
    [now apply optimized_resolves_extended|now apply resolves_extended].
Qed.

Lemma post_resolves_extended (h ext : heap.t) (p : post.t) :
  post_resolves h p -> post_resolves (h ++ ext) p.
Proof.
  intros [Hu [Ht [Hc Hcs]]]. repeat split.
  - now apply optimized_resolves_extended.
  - now apply optimized_resolves_extended.
  - now apply resolves_extended.
  - eapply Forall_impl; [|exact Hcs]. intros c. apply comment_resolves_extended.
Qed.

Lemma store_optimized_string_resolves (Capacity : nat) (h h' : heap.t) (s : str)
      (o : optimized_string) :
  store_optimized_string Capacity h s = (OK o, h') -> optimized_resolves h' o.
Proof.
  unfold store_optimized_string.
  destruct (size s >? u32_max); [discriminate|].
  destruct (length s <=? Capacity)%nat; simpl; intros H; injection H as <- <-; simpl.
  - exact I.
  - unfold resolves. rewrite length_app. simpl. lia.
Qed.

Lemma Forall_insert (P : post.t -> Prop) (v : post.t) (tree : btree.t) :
  P v -> Forall P tree -> Forall P (btree.insert v tree).
Proof.
  intros Hv. induction tree as [|p rest IH]; simpl; intros Hall.
  - now constructor.
  - inversion Hall as [|? ? Hp Hrest]; subst.
    destruct (post.id v <? post.id p); [now repeat constructor|].
    destruct (post.id v =? post.id p); [exact Hall|].
    constructor; [exact Hp|now apply IH].
Qed.

Lemma create_post_no_dangling (user title content : str) (now : Z)
      (store store' : storage.anchor) (id : Z) :
  no_dangling store ->
  storage.create_post user title content now store = (OK id, store') ->
  no_dangling store'.
Proof.
  intros Hnd Hcp.
  destruct (create_post_ok _ _ _ _ _ _ _ Hcp)
    as [_ [_ [_ [user' [title' [h1 [h2 [Hsu [Hst ->]]]]]]]]].
  destruct (store_optimized_string_ok _ _ _ _ _ Hsu) as [_ [[ext1 Hh1] _]].
  destruct (store_optimized_string_ok _ _ _ _ _ Hst) as [_ [[ext2 Hh2] _]].
  pose proof (store_optimized_string_resolves _ _ _ _ _ Hsu) as Hru.
  pose proof (store_optimized_string_resolves _ _ _ _ _ Hst) as Hrt.
  unfold no_dangling in *. simpl.
  apply Forall_insert.
  - repeat split; simpl.
    + rewrite Hh2, <- app_assoc. now apply optimized_resolves_extended.
    + now apply optimized_resolves_extended.
    + unfold resolves. rewrite length_app. simpl. lia.
    + constructor.
  - eapply Forall_impl; [|exact Hnd]. intros p Hp.
    rewrite Hh2, Hh1, <- !app_assoc. now apply post_resolves_extended.
Qed.

(** What a successful [create_comment] has checked and what it leaves. *)
Lemma create_comment_ok (post_id : Z) (user content : str) (now : Z)
      (store store' : storage.anchor) :
  storage.create_comment post_id user content now store = (OK tt, store') ->
  exists c user' h1,
    btree.find (storage.posts store) post_id = Some c /\
    0 <= now /\
    store_optimized_string 15 (storage.strings store) user = (OK user', h1) /\
    store' = storage.mk_anchor
               (storage.next_post_id store)
               (cursor.set c
                  (post.with_comments (cursor.here c)
                     (post.comments (cursor.here c)
                      ++ [comment.mk now user' (length h1)])))
               (h1 ++ [content]).
Proof.
  unfold storage.create_comment, storage.bind, storage.get_posts.
  destruct (btree.find (storage.posts store) post_id) as [c|] eqn:Hf; [|discriminate].
  unfold storage.lift, storage.current_timestamp.
  destruct (Z.ltb_spec now 0) as [Ht|Ht]; [discriminate|].
  unfold storage.on_strings. simpl.
  destruct (store_optimized_string 15 (storage.strings store) user) as [[user'|e] h1] eqn:Eu;
    [|discriminate].
  simpl. intros H. injection H as <-.
  exists c, user', h1. repeat split; assumption.
Qed.

Lemma create_comment_no_dangling (post_id : Z) (user content : str) (now : Z)
      (store store' : storage.anchor) :
  no_dangling store ->
  storage.create_comment post_id user content now store = (OK tt, store') ->
  no_dangling store'.
Proof.
  intros Hnd Hcc.
  destruct (create_comment_ok _ _ _ _ _ _ Hcc) as [c [user' [h1 [Hf [_ [Hsu ->]]]]]].
  destruct (store_optimized_string_ok _ _ _ _ _ Hsu) as [_ [[ext1 Hh1] _]].
  pose proof (store_optimized_string_resolves _ _ _ _ _ Hsu) as Hru.
  destruct (find_some _ _ _ Hf) as [_ Hc].
  unfold no_dangling in *. simpl.
  rewrite <- Hc in Hnd. unfold cursor.container in Hnd. unfold cursor.set.
  apply Forall_app in Hnd. destruct Hnd as [Hprev Hrest].
  apply Forall_cons_iff in Hrest. destruct Hrest as [Hhere Hnext].
  assert (Hext : forall p, post_resolves (storage.strings store) p ->
                           post_resolves (h1 ++ [content]) p).
  { intros p Hp. rewrite Hh1, <- app_assoc. now apply post_resolves_extended. }
  apply Forall_app. split; [eapply Forall_impl; [exact Hext|exact Hprev]|].
  constructor; [|eapply Forall_impl; [exact Hext|exact Hnext]].
  destruct (Hext _ Hhere) as [Hu [Ht [Hco Hcs]]].
  repeat split; simpl; try assumption.
  apply Forall_app. split; [exact Hcs|].
  constructor; [|constructor]. split; simpl.
  - now apply optimized_resolves_extended.
  - unfold resolves. rewrite length_app. simpl. lia.
Qed.

Lemma serve_no_dangling (q : request) (db : database.t) :
  no_dangling (database.committed db) ->
  no_dangling (database.committed (snd (serve q db))).
Proof.
  intros Hnd. destruct q; simpl.
  - unfold database.create_post, database.run_in_transaction.
    destruct (database.m_open db); simpl; [|exact Hnd].
    destruct (storage.create_post user title content now (database.committed db))
      as [[id|e] store'] eqn:Hcp; simpl; [|exact Hnd].
    exact (create_post_no_dangling _ _ _ _ _ _ _ Hnd Hcp).
  - unfold database.create_comment, database.run_in_transaction.
    destruct (database.m_open db); simpl; [|exact Hnd].
    destruct (storage.create_comment post_id user content now (database.committed db))
      as [[[]|e] store'] eqn:Hcc; simpl; [|exact Hnd].
    exact (create_comment_no_dangling _ _ _ _ _ _ Hnd Hcc).
  - unfold database.fetch_frontpage, database.run_in_transaction.
    destruct (database.m_open db); simpl; [|exact Hnd].
    destruct (storage.fetch_frontpage max_posts (database.committed db)); exact Hnd.
  - unfold database.fetch_post, database.run_in_transaction.
    destruct (database.m_open db); simpl; [|exact Hnd].
    destruct (storage.fetch_post post_id max_comments (database.committed db)); exact Hnd.
  - unfold database.dump, database.run_in_transaction.
    destruct (database.m_open db); exact Hnd.
  - unfold database.finish. destruct (database.m_open db); exact Hnd.
Qed.

Lemma serve_all_no_dangling (qs : list request) (db : database.t) :
  no_dangling (database.committed db) ->
  no_dangling (database.committed (snd (serve_all qs db))).
Proof.
  revert db. induction qs as [|q rest IH]; intros db Hnd; simpl; [exact Hnd|].
  pose proof (serve_no_dangling q db Hnd) as H.
  destruct (serve q db) as [r db']. specialize (IH db' H).
  destruct (serve_all rest db') as [rs db'']. exact IH.
Qed.

Lemma after_no_dangling (qs : list request) :
  no_dangling (database.committed (after qs)).
Proof.
  apply serve_all_no_dangling. constructor.
Qed.

(** X1.  Whatever requests a fresh database has served, every heap
    reference held by a post or a comment in the tree (user, title, content)
    is one the strings heap has handed out. *)
Theorem reachable_no_dangling :
  forall qs : list request, no_dangling (database.committed (after qs)).
Proof.
  exact after_no_dangling.
Qed.

(** ** Reading from a store without dangling references *)

Lemma load_string_resolves (h : heap.t) (ref : heap.reference) :
  resolves h ref -> exists s, load_string h ref = OK s.
Proof.
  unfold resolves, load_string, heap.load. intros Hlt.
  destruct (nth_error h ref) as [s|] eqn:E; [now exists s|].
  apply nth_error_None in E. lia.
Qed.

Lemma load_optimized_string_resolves (h : heap.t) (o : optimized_string) :
  optimized_resolves h o -> exists s, load_optimized_string h o = OK s.
Proof.
  destruct o; simpl; [eexists; reflexivity|apply load_string_resolves].
Qed.

Lemma map_result_ok {A B} (f : A -> result B) (xs : list A) :
  Forall (fun x => exists y, f x = OK y) xs -> exists ys, map_result f xs = OK ys.
Proof.
  induction 1 as [|x rest [y Hy] _ [ys Hys]]; simpl.
  - now exists [].
  - rewrite Hy, Hys. now exists (y :: ys).
Qed.

Lemma load_post_entry_ok (h : heap.t) (p : post.t) :
  post_resolves h p -> exists e, storage.load_post_entry h p = OK e.
Proof.
  intros [Hu [Ht _]]. unfold storage.load_post_entry.
  destruct (load_optimized_string_resolves _ _ Hu) as [u ->].
  destruct (load_optimized_string_resolves _ _ Ht) as [t ->].
  eexists; reflexivity.
Qed.

Lemma load_comment_entry_ok (h : heap.t) (c : comment.t) :
  comment_resolves h c -> exists e, storage.load_comment_entry h c = OK e.
Proof.
  intros [Hu Hc]. unfold storage.load_comment_entry.
  destruct (load_optimized_string_resolves _ _ Hu) as [u ->].
  destruct (load_string_resolves _ _ Hc) as [s ->].
  eexists; reflexivity.
Qed.

Lemma Forall_skipped {A} (P : A -> Prop) (n : nat) (l : list A) :
  Forall P l -> Forall P (skipn n l).
Proof.
  intros Hall. rewrite <- (firstn_skipn n l) in Hall.
  now apply Forall_app in Hall.
Qed.

Lemma fetch_frontpage_succeeds (max_posts : nat) (store : storage.anchor) :
  no_dangling store ->
  exists r,
    storage.fetch_frontpage max_posts store = OK r /\
    length (frontpage_result.entries r)
    = Nat.min max_posts (length (storage.posts store)).
Proof.
  intros Hnd. unfold storage.fetch_frontpage, btree.seek_max.
  rewrite collect_then_reverse.
  destruct (map_result_ok (storage.load_post_entry (storage.strings store))
              (skipn (length (storage.posts store) - max_posts) (storage.posts store)))
    as [entries He].
  { apply Forall_skipped. eapply Forall_impl; [|exact Hnd].
    intros p. apply load_post_entry_ok. }
  rewrite He. eexists. split; [reflexivity|]. simpl.
  rewrite (map_result_length _ _ _ He), length_skipn. lia.
Qed.

(** X2.  Whatever requests a fresh database has served, with [n] posts in
    the tree, [fetch_frontpage(k)] does not throw; it returns [min (k, n)]
    entries, whose ids are the largest [min (k, n)] ids in increasing
    order. *)
Theorem fetch_frontpage_reachable :
  forall (qs : list request) (max_posts : nat),
    let store := database.committed (after qs) in
    let n := length (storage.posts store) in
    exists r,
      storage.fetch_frontpage max_posts store = OK r /\
      length (frontpage_result.entries r) = Nat.min max_posts n /\
      map post_entry.id (frontpage_result.entries r)
      = count_from (Z.of_nat (n - max_posts) + 1) (Nat.min max_posts n).
Proof.
  intros qs max_posts store n.
  destruct (fetch_frontpage_succeeds max_posts store (after_no_dangling qs))
    as [r [Hr Hlen]].
  exists r. split; [exact Hr|]. split; [exact Hlen|].
  rewrite (fetch_frontpage_ascending qs max_posts r Hr).
  fold store. fold n. f_equal. lia.
Qed.

(** ** Looking a post up *)

Lemma find_from_here (before : list post.t) (tree : btree.t) (key : Z) :
  option_map cursor.here (btree.find_from before tree key)
  = find (fun p => post.id p =? key) tree.
Proof.
  revert before. induction tree as [|p rest IH]; intros before; simpl; [reflexivity|].
  destruct (post.id p =? key); [reflexivity|apply IH].
Qed.

Lemma lookup_find (tree : btree.t) (key : Z) :
  lookup tree key = find (fun p => post.id p =? key) tree.
Proof. apply find_from_here. Qed.

Lemma lookup_none (tree : btree.t) (key : Z) :
  lookup tree key = None <-> ~ In key (btree.keys tree).
Proof.
  rewrite <- find_none. unfold lookup.
  destruct (btree.find tree key); simpl; split; (discriminate || reflexivity).
Qed.

Lemma lookup_some (tree : btree.t) (key : Z) (p : post.t) :
  lookup tree key = Some p -> In p tree /\ post.id p = key.
Proof.
  rewrite lookup_find. intros H. apply List.find_some in H.
  destruct H as [Hin Hid]. split; [exact Hin|now apply Z.eqb_eq].
Qed.

(** [fetch_post] is a lookup followed by the reading of the post found. *)
Lemma fetch_post_read (post_id : Z) (max_comments : nat) (store : storage.anchor) :
  storage.fetch_post post_id max_comments store
  = match lookup (storage.posts store) post_id with
    | Some found_post => read_found_post (storage.strings store) max_comments found_post
    | None => Throw (not_found_error "Post not found.")
    end.
Proof.
  unfold storage.fetch_post, lookup.
  destruct (btree.find (storage.posts store) post_id); reflexivity.
Qed.

(** The comments [fetch_post] decodes: the last [max_comments] of the post. *)
Lemma read_found_post_unfold (h : heap.t) (max_comments : nat) (p : post.t) :
  read_found_post h max_comments p
  = (user <- load_optimized_string h (post.user p) ;;
     title <- load_optimized_string h (post.title p) ;;
     content <- load_string h (post.content p) ;;
     comments <- map_result (storage.load_comment_entry h)
                   (skipn (length (post.comments p) - max_comments) (post.comments p)) ;;
     OK (post_result.mk (post.id p) (post.created_at p) user title content comments))%result.
Proof.
  unfold read_found_post, comment_list.seek_last. simpl.
  now rewrite collect_then_reverse.
Qed.

Lemma read_found_post_ok (h : heap.t) (max_comments : nat) (p : post.t) :
  post_resolves h p ->
  exists r,
    read_found_post h max_comments p = OK r /\
    post_result.id r = post.id p /\
    post_result.created_at r = post.created_at p /\
    length (post_result.comments r)
    = Nat.min max_comments (length (post.comments p)).
Proof.
  intros [Hu [Ht [Hc Hcs]]]. rewrite read_found_post_unfold.
  destruct (load_optimized_string_resolves _ _ Hu) as [u ->].
  destruct (load_optimized_string_resolves _ _ Ht) as [t ->].
  destruct (load_string_resolves _ _ Hc) as [c ->].
  destruct (map_result_ok (storage.load_comment_entry h)
              (skipn (length (post.comments p) - max_comments) (post.comments p)))
    as [entries He].
  { apply Forall_skipped. eapply Forall_impl; [|exact Hcs].
    intros c0. apply load_comment_entry_ok. }
  rewrite He. eexists. split; [reflexivity|]. simpl.
  repeat split. rewrite (map_result_length _ _ _ He), length_skipn. lia.
Qed.

(** X3.  Whatever requests a fresh database has served, with [n] posts in
    the tree, [fetch_post(id, k)] succeeds exactly for the ids 1, ..., n; for
    every other id it throws [not_found_error], and it throws nothing else.
    When it succeeds the result carries the id asked for and
    [min (k, number of comments of the post)] comments. *)
Theorem fetch_post_reachable :
  forall (qs : list request) (post_id : Z) (max_comments : nat),
    let store := database.committed (after qs) in
    let n := length (storage.posts store) in
    (throws (storage.fetch_post post_id max_comments store) = false
     <-> 1 <= post_id <= Z.of_nat n) /\
    (forall e, storage.fetch_post post_id max_comments store = Throw e ->
               e = not_found_error "Post not found.") /\
    (forall r, storage.fetch_post post_id max_comments store = OK r ->
               post_result.id r = post_id /\
               exists p, lookup (storage.posts store) post_id = Some p /\
                         length (post_result.comments r)
                         = Nat.min max_comments (length (post.comments p))).
Proof.
  intros qs post_id max_comments store n.
  pose proof (after_no_dangling qs) as Hnd. fold store in Hnd.
  destruct (after_well_formed qs) as [Hkeys _]. fold store in Hkeys. fold n in Hkeys.
  rewrite fetch_post_read.
  destruct (lookup (storage.posts store) post_id) as [p|] eqn:Hl.
  - destruct (lookup_some _ _ _ Hl) as [Hin Hid].
    assert (Hrange : 1 <= post_id <= Z.of_nat n).
    { assert (Hk : In post_id (btree.keys (storage.posts store)))
        by (rewrite <- Hid; now apply in_map).
      rewrite Hkeys, count_from_In in Hk. lia. }
    unfold no_dangling in Hnd. rewrite Forall_forall in Hnd.
    destruct (read_found_post_ok (storage.strings store) max_comments p (Hnd p Hin))
      as [r [Hr [Hrid [_ Hlen]]]].
    rewrite Hr. simpl. split; [split; [intros _; exact Hrange|reflexivity]|].
    split; [discriminate|].
    intros r' Hr'. injection Hr' as <-. split; [now rewrite Hrid|].
    exists p. split; [reflexivity|exact Hlen].
  - apply lookup_none in Hl. rewrite Hkeys, count_from_In in Hl.
    simpl. split; [split; [discriminate|lia]|].
    split; [|discriminate].
    intros e He. now injection He as <-.
Qed.

(** ** Writing through a cursor, seen by later lookups *)

Lemma find_skip {A} (f : A -> bool) (front rest : list A) :
  find f front = None -> find f (front ++ rest) = find f rest.
Proof.
  induction front as [|x front IH]; simpl; [reflexivity|].
  destruct (f x); [discriminate|exact IH].
Qed.

Lemma find_replaced {A} (f : A -> bool) (front rest : list A) (x y : A) :
  f x = false -> f y = false ->
  find f (front ++ x :: rest) = find f (front ++ y :: rest).
Proof.
  intros Hx Hy. induction front as [|z front IH]; simpl.
  - now rewrite Hx, Hy.
  - destruct (f z); [reflexivity|exact IH].
Qed.

(** [find] stops at the first entry with the key: the entries it has passed
    have other keys. *)
Lemma find_from_passed (before : list post.t) (tree : btree.t) (key : Z)
      (c : cursor.t post.t) :
  btree.find_from before tree key = Some c ->
  exists front,
    cursor.prev c = rev front ++ before /\
    find (fun p => post.id p =? key) front = None /\
    post.id (cursor.here c) = key.
Proof.
  revert before. induction tree as [|p rest IH]; intros before; simpl; [discriminate|].
  destruct (Z.eqb_spec (post.id p) key) as [Heq|Hne].
  - intros H. injection H as <-. exists []. repeat split. exact Heq.
  - intros H. destruct (IH _ H) as [front [Hprev [Hnone Hid]]].
    exists (p :: front). simpl. split; [|split; [|exact Hid]].
    + rewrite Hprev, <- app_assoc. reflexivity.
    + destruct (Z.eqb_spec (post.id p) key); [contradiction|exact Hnone].
Qed.

(** A post written through the cursor [find] returned is what a later
    lookup by the same id finds. *)
Lemma lookup_after_set (tree : btree.t) (key : Z) (c : cursor.t post.t) (v : post.t) :
  btree.find tree key = Some c ->
  post.id v = key ->
  lookup (cursor.set c v) key = Some v.
Proof.
  intros Hf Hv. destruct (find_from_passed _ _ _ _ Hf) as [front [Hprev [Hnone _]]].
  rewrite lookup_find. unfold cursor.set.
  rewrite Hprev, app_nil_r, rev_involutive, find_skip by exact Hnone.
  simpl. apply Z.eqb_eq in Hv. now rewrite Hv.
Qed.

(** ... and a lookup by another id finds what it found before. *)
Lemma lookup_other_after_set (tree : btree.t) (key other : Z) (c : cursor.t post.t)
      (v : post.t) :
  btree.find tree key = Some c ->
  post.id v = key ->
  other <> key ->
  lookup (cursor.set c v) other = lookup tree other.
Proof.
  intros Hf Hv Hne. destruct (find_some _ _ _ Hf) as [Hid Hc].
  rewrite <- Hc. rewrite !lookup_find. unfold cursor.set, cursor.container.
  apply find_replaced; apply Z.eqb_neq; congruence.
Qed.

(** ** Reading over a heap that has grown *)

Lemma map_result_extended {A B} (f g : A -> result B) (xs : list A) (ys : list B) :
  (forall x y, f x = OK y -> g x = OK y) ->
  map_result f xs = OK ys -> map_result g xs = OK ys.
Proof.
  intros Hfg. revert ys. induction xs as [|x rest IH]; simpl; intros ys H; [exact H|].
  destruct (f x) as [y|] eqn:Ex; [|discriminate].
  destruct (map_result f rest) as [ys'|]; [|discriminate].
  now rewrite (Hfg _ _ Ex), (IH ys' eq_refl).
Qed.


Lemma load_post_entry_extended (h ext : heap.t) (p : post.t) (e : post_entry.t) :
  storage.load_post_entry h p = OK e -> storage.load_post_entry (h ++ ext) p = OK e.
Proof.
  unfold storage.load_post_entry.
  destruct (load_optimized_string h (post.user p)) as [u|] eqn:Eu; [|discriminate].
  destruct (load_optimized_string h (post.title p)) as [t|] eqn:Et; [|discriminate].
  intros H.
  now rewrite (load_optimized_string_extended _ ext _ _ Eu),
              (load_optimized_string_extended _ ext _ _ Et).
Qed.

Lemma load_comment_entry_extended (h ext : heap.t) (c : comment.t) (e : comment_entry.t) :
  storage.load_comment_entry h c = OK e ->
  storage.load_comment_entry (h ++ ext) c = OK e.
Proof.
  unfold storage.load_comment_entry.
  destruct (load_optimized_string h (comment.user c)) as [u|] eqn:Eu; [|discriminate].
  destruct (load_string h (comment.content c)) as [s|] eqn:Es; [|discriminate].
  intros H.
  now rewrite (load_optimized_string_extended _ ext _ _ Eu),
              (load_string_extended _ ext _ _ Es).
Qed.

(** What [read_found_post] has loaded when it succeeds. *)
Lemma read_found_post_inv (h : heap.t) (max_comments : nat) (p : post.t)
      (r : post_result.t) :
  read_found_post h max_comments p = OK r ->
  exists user title content comments,
    load_optimized_string h (post.user p) = OK user /\
    load_optimized_string h (post.title p) = OK title /\
    load_string h (post.content p) = OK content /\
    map_result (storage.load_comment_entry h)
      (skipn (length (post.comments p) - max_comments) (post.comments p)) = OK comments /\
    r = post_result.mk (post.id p) (post.created_at p) user title content comments.
Proof.
  rewrite read_found_post_unfold.
  destruct (load_optimized_string h (post.user p)) as [u|]; [|discriminate].
  destruct (load_optimized_string h (post.title p)) as [t|]; [|discriminate].
  destruct (load_string h (post.content p)) as [c|]; [|discriminate].
  destruct (map_result _ _) as [cs|]; [|discriminate].
  intros H. injection H as <-. exists u, t, c, cs. repeat split.
Qed.

Lemma read_found_post_extended (h ext : heap.t) (max_comments : nat) (p : post.t)
      (r : post_result.t) :
  read_found_post h max_comments p = OK r ->
  read_found_post (h ++ ext) max_comments p = OK r.
Proof.
  intros H. destruct (read_found_post_inv _ _ _ _ H) as [u [t [c [cs [Hu [Ht [Hc [Hcs ->]]]]]]]].
  rewrite read_found_post_unfold.
  rewrite (load_optimized_string_extended _ ext _ _ Hu),
          (load_optimized_string_extended _ ext _ _ Ht),
          (load_string_extended _ ext _ _ Hc).
  now rewrite (map_result_extended _ (storage.load_comment_entry (h ++ ext)) _ _
                 (load_comment_entry_extended h ext) Hcs).
Qed.

(** ** A comment, once created, is the last one [fetch_post] lists *)






(** ** What creating a comment or a post leaves alone *)

(** X5.  A successful [create_comment] on one post does not change what
    [fetch_post] returns for any other id: the same result when it
    succeeded, [not_found_error] when it threw that. *)
Theorem create_comment_keeps_other_posts :
  forall (store store' : storage.anchor) (post_id other : Z) (user content : str)
         (now : Z) (max_comments : nat),
    storage.create_comment post_id user content now store = (OK tt, store') ->
    other <> post_id ->
    (forall r, storage.fetch_post other max_comments store = OK r ->
               storage.fetch_post other max_comments store' = OK r) /\
    (is_not_found (storage.fetch_post other max_comments store) = true ->
     storage.fetch_post other max_comments store'
     = Throw (not_found_error "Post not found.")).
Proof.
  intros store store' post_id other user content now k Hcc Hne.
  destruct (create_comment_ok _ _ _ _ _ _ Hcc) as [c [user' [h1 [Hf [_ [Hsu ->]]]]]].
  destruct (store_optimized_string_ok _ _ _ _ _ Hsu) as [_ [[ext1 Hh1] _]].
  destruct (find_some _ _ _ Hf) as [Hid _].
  rewrite !fetch_post_read. simpl.
  rewrite (lookup_other_after_set _ _ _ _ _ Hf) by assumption.
  destruct (lookup (storage.posts store) other) as [p|] eqn:Hl.
  - split.
    + intros r Hr. rewrite Hh1, <- app_assoc. now apply read_found_post_extended.
    + intros Hnf. exfalso.
      assert (Hfound : exists c', btree.find (storage.posts store) other = Some c').
      { unfold lookup in Hl. destruct (btree.find (storage.posts store) other) as [c'|];
          [now exists c'|discriminate]. }
      destruct Hfound as [c' Hc'].
      pose proof (fetch_post_found other k store c' Hc') as Hok.
      rewrite fetch_post_read, Hl in Hok. congruence.
  - split; [discriminate|reflexivity].
Qed.

Lemma create_comment_keeps_other_posts_witness :
  let store := database.committed (after two_posts) in
  let store' := snd (storage.create_comment 2 (bytes "carol") (bytes "nice") 102 store) in
  storage.fetch_post 1 10 store'
  = OK (post_result.mk 1 100 (bytes "alice") (bytes "hi") (bytes "hello world") []) /\
  storage.fetch_post 3 10 store' = Throw (not_found_error "Post not found.").
Proof.
  intros store store'.
  assert (H1 : 1 <> 2) by discriminate.
  assert (H3 : 3 <> 2) by discriminate.
  split.
  - apply (proj1 (create_comment_keeps_other_posts store store' 2 1 (bytes "carol")
                    (bytes "nice") 102 10 eq_refl H1)).
    vm_compute; reflexivity.
  - apply (proj2 (create_comment_keeps_other_posts store store' 2 3 (bytes "carol")
                    (bytes "nice") 102 10 eq_refl H3)).
    reflexivity.
Defined.

Lemma Forall2_skipped {A B} (R : A -> B -> Prop) (n : nat) (xs : list A) (ys : list B) :
  Forall2 R xs ys -> Forall2 R (skipn n xs) (skipn n ys).
Proof.
  intros H. revert n. induction H as [|x y xs ys Hxy Hrest IH]; intros n.
  - rewrite !skipn_nil. constructor.
  - destruct n as [|n]; simpl; [now constructor|apply IH].
Qed.

Lemma map_result_related {A B} (f g : A -> result B) (xs xs' : list A) (ys : list B) :
  Forall2 (fun x x' => forall y, f x = OK y -> g x' = OK y) xs xs' ->
  map_result f xs = OK ys -> map_result g xs' = OK ys.
Proof.
  intros H. revert ys. induction H as [|x x' xs xs' Hx _ IH]; simpl; intros ys Hys.
  - exact Hys.
  - destruct (f x) as [y|] eqn:Ex; [|discriminate].
    destruct (map_result f xs) as [ys'|]; [|discriminate].
    now rewrite (Hx y eq_refl), (IH ys' eq_refl).
Qed.

Lemma Forall2_same {A} (R : A -> A -> Prop) (xs : list A) :
  (forall x, R x x) -> Forall2 R xs xs.
Proof. intros HR. induction xs; constructor; auto. Qed.

(** X6.  A successful [create_comment] does not change what
    [fetch_frontpage] returns. *)
Theorem create_comment_keeps_frontpage :
  forall (store store' : storage.anchor) (post_id : Z) (user content : str)
         (now : Z) (max_posts : nat) (r : frontpage_result.t),
    storage.create_comment post_id user content now store = (OK tt, store') ->
    storage.fetch_frontpage max_posts store = OK r ->
    storage.fetch_frontpage max_posts store' = OK r.
Proof.
  intros store store' post_id user content now k r Hcc Hr.
  destruct (create_comment_ok _ _ _ _ _ _ Hcc) as [c [user' [h1 [Hf [_ [Hsu ->]]]]]].
  destruct (store_optimized_string_ok _ _ _ _ _ Hsu) as [_ [[ext1 Hh1] _]].
  destruct (find_some _ _ _ Hf) as [_ Hc].
  unfold storage.fetch_frontpage, btree.seek_max in Hr |- *. simpl.
  rewrite collect_then_reverse in Hr |- *.
  rewrite length_after_set, Hc.
  destruct (map_result _ _) as [entries|] eqn:He in Hr; [|discriminate].
  injection Hr as <-.
  match goal with
  | |- context [map_result ?g ?xs'] =>
      assert (He' : map_result g xs' = OK entries)
  end.
  { eapply map_result_related; [|exact He].
    apply Forall2_skipped. rewrite <- Hc. unfold cursor.container, cursor.set.
    assert (Hext : forall p e, storage.load_post_entry (storage.strings store) p = OK e ->
                               storage.load_post_entry (h1 ++ [content]) p = OK e).
    { intros p e Hp. rewrite Hh1, <- app_assoc. now apply load_post_entry_extended. }
    apply Forall2_app; [apply Forall2_same; exact Hext|].
    constructor; [|apply Forall2_same; exact Hext].
    intros e Hp. apply Hext in Hp. exact Hp. }
  now rewrite He'.
Qed.

Lemma create_comment_keeps_frontpage_witness :
  let store := database.committed (after two_posts) in
  let store' := snd (storage.create_comment 2 (bytes "carol") (bytes "nice") 102 store) in
  storage.fetch_frontpage 1 store'
  = OK (frontpage_result.mk [post_entry.mk 2 101 (bytes "bob") (bytes "second")]).
Proof.
  intros store store'.
  apply (create_comment_keeps_frontpage store store' 2 (bytes "carol") (bytes "nice")
           102 1 _ eq_refl).
  vm_compute; reflexivity.
Defined.

Lemma lookup_insert_other (v : post.t) (tree : btree.t) (other : Z) :
  other <> post.id v ->
  lookup (btree.insert v tree) other = lookup tree other.
Proof.
  intros Hne. rewrite !lookup_find.
  assert (Hv : (post.id v =? other) = false) by (apply Z.eqb_neq; congruence).
  induction tree as [|p rest IH]; simpl.
  - now rewrite Hv.
  - destruct (post.id v <? post.id p); simpl; [now rewrite Hv|].
    destruct (post.id v =? post.id p); simpl; [reflexivity|].
    destruct (post.id p =? other); [reflexivity|exact IH].
Qed.

(** X7.  A successful [create_post] does not change what [fetch_post]
    returns for any id other than the one it returned. *)
Theorem create_post_keeps_other_posts :
  forall (store store' : storage.anchor) (user title content : str) (now id other : Z)
         (max_comments : nat) (r : post_result.t),
    storage.create_post user title content now store = (OK id, store') ->
    other <> id ->
    storage.fetch_post other max_comments store = OK r ->
    storage.fetch_post other max_comments store' = OK r.
Proof.
  intros store store' user title content now id other k r Hcp Hne Hr.
  destruct (create_post_ok _ _ _ _ _ _ _ Hcp)
    as [_ [_ [_ [user' [title' [h1 [h2 [Hsu [Hst ->]]]]]]]]].
  destruct (store_optimized_string_ok _ _ _ _ _ Hsu) as [_ [[ext1 Hh1] _]].
  destruct (store_optimized_string_ok _ _ _ _ _ Hst) as [_ [[ext2 Hh2] _]].
  rewrite fetch_post_read in Hr |- *. simpl.
  rewrite lookup_insert_other by exact Hne.
  destruct (lookup (storage.posts store) other) as [p|]; [|discriminate].
  rewrite Hh2, Hh1, <- !app_assoc. now apply read_found_post_extended.
Qed.

Lemma create_post_keeps_other_posts_witness :
  let store := database.committed (after two_posts) in
  let store' := snd (storage.create_post (bytes "carol") (bytes "third") (bytes "c") 102 store) in
  storage.fetch_post 2 10 store'
  = OK (post_result.mk 2 101 (bytes "bob") (bytes "second") (repeat x78 100) []).
Proof.
  intros store store'.
  assert (Hne : 2 <> 3) by discriminate.
  apply (create_post_keeps_other_posts store store' (bytes "carol") (bytes "third")
           (bytes "c") 102 3 2 10 _ eq_refl Hne).
  vm_compute; reflexivity.
Defined.

(** ** A post, once created, is the last one [fetch_frontpage] lists *)



(** ** An exhausted id space *)

Lemma create_post_exhausted (user title content : str) (now : Z) (store : storage.anchor) :
  storage.next_post_id store = 0 ->
  storage.create_post user title content now store
  = (Throw (database_error "ID space exhausted."), store).
Proof.
  intros H0. unfold storage.create_post, storage.bind, storage.get_next_post_id.
  now rewrite H0.
Qed.

Lemma serve_exhausted (q : request) (db : database.t) :
  storage.next_post_id (database.committed db) = 0 ->
  created_ids [fst (serve q db)] = [] /\
  storage.next_post_id (database.committed (snd (serve q db))) = 0 /\
  btree.keys (storage.posts (database.committed (snd (serve q db))))
  = btree.keys (storage.posts (database.committed db)).
Proof.
  intros H0. destruct (is_create_post q) eqn:Hq.
  - destruct q; try discriminate. simpl.
    unfold database.create_post, database.run_in_transaction.
    destruct (database.m_open db); simpl; [|repeat split; exact H0].
    rewrite create_post_exhausted by exact H0. simpl. repeat split; exact H0.
  - destruct (serve_keeps_ids q db Hq) as [Hnext [Hkeys _]].
    rewrite (serve_other_created_ids q db [] Hq), Hnext, Hkeys.
    repeat split; exact H0.
Qed.

(** X9.  Once [next_post_id] is 0, [create_post] throws "ID space
    exhausted." whatever its arguments and the clock, without touching the
    store; and whatever requests the database then serves, no [create_post]
    ever succeeds again, the counter stays 0 and the ids in the tree stay the
    same. *)
Theorem exhausted_stays_exhausted :
  forall (db : database.t) (qs : list request),
    storage.next_post_id (database.committed db) = 0 ->
    (forall user title content now,
        storage.create_post user title content now (database.committed db)
        = (Throw (database_error "ID space exhausted."), database.committed db)) /\
    created_ids (fst (serve_all qs db)) = [] /\
    storage.next_post_id (database.committed (snd (serve_all qs db))) = 0 /\
    btree.keys (storage.posts (database.committed (snd (serve_all qs db))))
    = btree.keys (storage.posts (database.committed db)).
Proof.
  intros db qs H0. split.
  { intros user title content now. now apply create_post_exhausted. }
  revert db H0. induction qs as [|q rest IH]; intros db H0; simpl.
  - repeat split; exact H0.
  - destruct (serve_exhausted q db H0) as [Hids [Hnext Hkeys]].
    destruct (serve q db) as [r db']. simpl in Hids, Hnext, Hkeys.
    destruct (IH db' Hnext) as [Hids' [Hnext' Hkeys']].
    destruct (serve_all rest db') as [rs db'']. simpl in *.
    split; [|split; [exact Hnext'|now rewrite Hkeys']].
    destruct r as [[id|e]| | | | |]; simpl in Hids |- *; try exact Hids'.
    discriminate Hids.
Qed.

Lemma exhausted_stays_exhausted_witness :
  let db := database.mk true exhausted_store in
  let qs := [CreatePost (bytes "alice") (bytes "hi") (bytes "hello") 100; FetchFrontpage 1] in
  created_ids (fst (serve_all qs db)) = [] /\
  storage.next_post_id (database.committed (snd (serve_all qs db))) = 0.
Proof.
  intros db qs.
  destruct (exhausted_stays_exhausted db qs eq_refl) as [_ [Hids [Hnext _]]].
  split; [exact Hids|exact Hnext].
Defined.

(** ** A database that has been shut down *)

Lemma serve_closed (q : request) (db : database.t) :
  database.m_open db = false ->
  snd (serve q db) = db /\
  exists what, response_exn (fst (serve q db)) = Some (logic_error what).
Proof.
  intros Hclosed. destruct q; simpl;
    unfold database.create_post, database.create_comment, database.fetch_frontpage,
           database.fetch_post, database.dump, database.finish,
           database.run_in_transaction;
    rewrite Hclosed; simpl; (split; [reflexivity|eexists; reflexivity]).
Qed.

(** X10.  [finish] succeeds on an open database and leaves its content as
    it is.  After it, every public operation - a second [finish] too - throws
    [logic_error], and no sequence of requests changes the database. *)
Theorem finish_is_final :
  forall (db : database.t) (qs : list request),
    database.m_open db = true ->
    let db' := snd (database.finish db) in
    fst (database.finish db) = OK tt /\
    database.committed db' = database.committed db /\
    snd (serve_all qs db') = db' /\
    Forall (fun r => exists what, response_exn r = Some (logic_error what))
           (fst (serve_all qs db')).
Proof.
  intros db qs Hopen db'. subst db'. unfold database.finish. rewrite Hopen. simpl.
  split; [reflexivity|]. split; [reflexivity|].
  set (db' := database.mk false (database.committed db)).
  assert (Hclosed : database.m_open db' = false) by reflexivity.
  clearbody db'. induction qs as [|q rest IH]; simpl.
  - split; [reflexivity|constructor].
  - destruct (serve_closed q db' Hclosed) as [Hdb Hr].
    destruct (serve q db') as [r db'']. simpl in Hdb, Hr. subst db''.
    destruct IH as [IHdb IHr].
    destruct (serve_all rest db') as [rs db'']. simpl in *.
    split; [exact IHdb|constructor; assumption].
Qed.

Lemma finish_is_final_witness :
  let db' := snd (database.finish (after two_posts)) in
  let qs := [FetchFrontpage 10; CreatePost [] [] [] 0; Finish] in
  snd (serve_all qs db') = db' /\
  Forall (fun r => exists what, response_exn r = Some (logic_error what))
         (fst (serve_all qs db')).
Proof.
  intros db' qs.
  destruct (finish_is_final (after two_posts) qs eq_refl) as [_ [_ [Hdb Hr]]].
  split; [exact Hdb|exact Hr].
Defined.

(** ** The operations as Python sees them *)

(** The outcome of [create_comment], case by case, in the order of the
    checks in the code. *)
Lemma create_comment_outcome (post_id : Z) (user content : str) (now : Z)
      (store : storage.anchor) :
  fst (storage.create_comment post_id user content now store) =
    match lookup (storage.posts store) post_id with
    | None => Throw (not_found_error "Post not found.")
    | Some _ =>
        if now <? 0 then Throw (runtime_error "time() failed.")
        else if size user >? u32_max then Throw (database_error "String is too large.")
        else OK tt
    end.
Proof.
  unfold storage.create_comment, storage.bind, storage.get_posts, lookup.
  destruct (btree.find (storage.posts store) post_id) as [c|]; [|reflexivity].
  simpl. unfold storage.lift, storage.current_timestamp.
  destruct (now <? 0); [reflexivity|].
  unfold storage.on_strings, store_optimized_string. simpl.
  destruct (size user >? u32_max); [reflexivity|].
  destruct (length user <=? 15)%nat; reflexivity.
Qed.

(** X11.  On an open database, the [create_comment] bound to Python returns
    [false] exactly when no post has the id, and then leaves the database as
    it was; it returns [true] exactly when the store's [create_comment]
    succeeds; it never lets a [not_found_error] through.  The [fetch_post]
    bound to Python returns [None] exactly when no post has the id. *)
Theorem python_not_found_is_a_value :
  forall (db : database.t) (post_id : Z) (user content : str) (now : Z)
         (max_comments : nat),
    database.m_open db = true ->
    let store := database.committed db in
    let cc := python.create_comment post_id user content now db in
    let fp := python.fetch_post post_id max_comments db in
    (fst cc = OK false <-> ~ In post_id (btree.keys (storage.posts store))) /\
    (fst cc = OK false -> snd cc = db) /\
    (fst cc = OK true
     <-> fst (storage.create_comment post_id user content now store) = OK tt) /\
    is_not_found (fst cc) = false /\
    (fst fp = OK None <-> ~ In post_id (btree.keys (storage.posts store))) /\
    is_not_found (fst fp) = false /\
    snd fp = db.
Proof.
  intros db post_id user content now k Hopen store cc fp.
  subst cc fp. unfold python.create_comment, python.fetch_post, python.exec_transaction.
  rewrite Hopen. simpl. fold store.
  rewrite <- lookup_none.
  pose proof (create_comment_outcome post_id user content now store) as Hcc.
  pose proof (fetch_post_read post_id k store) as Hfp.
  destruct (storage.create_comment post_id user content now store) as [rc sc].
  simpl in Hcc. subst rc.
  destruct (storage.fetch_post post_id k store) as [r|e] eqn:Hr.
  - destruct (lookup (storage.posts store) post_id) as [p|] eqn:Hl; [|discriminate].
    destruct db as [o m]; simpl in *; subst o.
    destruct (now <? 0); simpl;
      [|destruct (size user >? u32_max); simpl];
      repeat split; intros; try discriminate; try reflexivity; try congruence.
  - destruct (lookup (storage.posts store) post_id) as [p|] eqn:Hl.
    + assert (He : e = bad_reference).
      { unfold read_found_post in Hfp. simpl in Hfp.
        destruct (load_optimized_string _ (post.user p)) eqn:E1;
          [|injection Hfp as ->; exact (load_optimized_string_throws _ _ _ E1)].
        destruct (load_optimized_string _ (post.title p)) eqn:E2;
          [|injection Hfp as ->; exact (load_optimized_string_throws _ _ _ E2)].
        destruct (load_string _ (post.content p)) eqn:E3;
          [|injection Hfp as ->; exact (load_string_throws _ _ _ E3)].
        destruct (map_result _ _) eqn:E4; [discriminate|].
        injection Hfp as ->.
        exact (map_result_throws _ _ _ (load_comment_entry_throws _) E4). }
      subst e.
      destruct (now <? 0); simpl;
        [|destruct (size user >? u32_max); simpl];
        repeat split; intros; try discriminate; try reflexivity; try congruence.
    + injection Hfp as ->. simpl.
      repeat split; intros; try discriminate; try reflexivity; try congruence.
Qed.

Lemma python_not_found_is_a_value_witness :
  python.create_comment 999 (bytes "x") (bytes "y") 100 (after two_posts)
  = (OK false, after two_posts) /\
  python.fetch_post 999 10 (after two_posts) = (OK None, after two_posts).
Proof.
  destruct (python_not_found_is_a_value (after two_posts) 999 (bytes "x") (bytes "y")
              100 10 eq_refl) as [Hf [Hdb [_ [_ [Hn [_ Hdb']]]]]].
  split.
  - apply injective_projections.
    + apply Hf. vm_compute. intuition discriminate.
    + apply Hdb. apply Hf. vm_compute. intuition discriminate.
  - apply injective_projections.
    + apply Hn. vm_compute. intuition discriminate.
    + exact Hdb'.
Defined.

(** ** The heap only grows *)

Lemma store_optimized_string_grows (Capacity : nat) (h : heap.t) (s : str) :
  exists ext, snd (store_optimized_string Capacity h s) = h ++ ext.
Proof.
  unfold store_optimized_string.
  destruct (size s >? u32_max); [exists []; simpl; now rewrite app_nil_r|].
  destruct (length s <=? Capacity)%nat; simpl.
  - exists []. now rewrite app_nil_r.
  - now exists [s].
Qed.

Lemma create_post_grows (user title content : str) (now : Z) (store : storage.anchor) :
  exists ext,
    storage.strings (snd (storage.create_post user title content now store))
    = storage.strings store ++ ext.
Proof.
  unfold storage.create_post, storage.bind, storage.get_posts, storage.get_next_post_id.
  destruct (storage.next_post_id store =? 0);
    [exists []; simpl; now rewrite app_nil_r|].
  unfold storage.lift, storage.current_timestamp.
  destruct (now <? 0); [exists []; simpl; now rewrite app_nil_r|].
  unfold storage.on_strings. simpl.
  destruct (store_optimized_string_grows 15 (storage.strings store) user) as [ext1 H1].
  destruct (store_optimized_string 15 (storage.strings store) user) as [[user'|e] h1];
    simpl in H1 |- *; [|now exists ext1].
  destruct (store_optimized_string_grows 31 h1 title) as [ext2 H2].
  destruct (store_optimized_string 31 h1 title) as [[title'|e] h2];
    simpl in H2 |- *.
  - exists (ext1 ++ ext2 ++ [content]). rewrite H2, H1. now rewrite <- !app_assoc.
  - exists (ext1 ++ ext2). rewrite H2, H1. now rewrite <- app_assoc.
Qed.

Lemma create_comment_grows (post_id : Z) (user content : str) (now : Z)
      (store : storage.anchor) :
  exists ext,
    storage.strings (snd (storage.create_comment post_id user content now store))
    = storage.strings store ++ ext.
Proof.
  unfold storage.create_comment, storage.bind, storage.get_posts.
  destruct (btree.find (storage.posts store) post_id) as [c|];
    [|exists []; simpl; now rewrite app_nil_r].
  unfold storage.lift, storage.current_timestamp.
  destruct (now <? 0); [exists []; simpl; now rewrite app_nil_r|].
  unfold storage.on_strings. simpl.
  destruct (store_optimized_string_grows 15 (storage.strings store) user) as [ext1 H1].
  destruct (store_optimized_string 15 (storage.strings store) user) as [[user'|e] h1];
    simpl in H1 |- *; [|now exists ext1].
  exists (ext1 ++ [content]). rewrite H1. now rewrite <- app_assoc.
Qed.

(** X12.  A string the heap holds under a reference is still held under
    that reference, unchanged, after [create_post] and after
    [create_comment], whether they succeed or throw: the store never
    overwrites or frees a string. *)
Theorem stored_strings_stay :
  forall (store : storage.anchor) (ref : heap.reference) (s : str),
    load_string (storage.strings store) ref = OK s ->
    (forall user title content now,
        load_string
          (storage.strings (snd (storage.create_post user title content now store))) ref
        = OK s) /\
    (forall post_id user content now,
        load_string
          (storage.strings (snd (storage.create_comment post_id user content now store))) ref
        = OK s).
Proof.
  intros store ref s Hl. split.
  - intros user title content now.
    destruct (create_post_grows user title content now store) as [ext ->].
    now apply load_string_extended.
  - intros post_id user content now.
    destruct (create_comment_grows post_id user content now store) as [ext ->].
    now apply load_string_extended.
Qed.

Lemma stored_strings_stay_witness :
  let store := database.committed (after two_posts) in
  load_string
    (storage.strings
       (snd (storage.create_post (repeat x61 20) (bytes "t") (bytes "c") (-1) store))) 0%nat
  = OK (bytes "hello world") /\
  load_string
    (storage.strings
       (snd (storage.create_comment 2 (repeat x61 20) (bytes "c") 5 store))) 0%nat
  = OK (bytes "hello world").
Proof.
  intros store.
  destruct (stored_strings_stay store 0%nat (bytes "hello world") eq_refl) as [Hp Hc].
  split; [apply Hp|apply Hc].
Defined.

(** ** Decoding what was encoded, again *)





(** ** What [create_comment] checks *)

(** X14.  [create_comment] on a post that exists throws "time() failed."
    exactly when the clock is negative, throws "String is too large." exactly
    when the clock is sane and [user] is longer than 2^32 - 1 bytes, and
    succeeds otherwise; on a post that does not exist it does none of these.
    Its outcome is the same for every [content]. *)
Theorem create_comment_checks :
  forall (post_id : Z) (user content : str) (now : Z) (store : storage.anchor),
    let out := fst (storage.create_comment post_id user content now store) in
    let found := In post_id (btree.keys (storage.posts store)) in
    (out = Throw (runtime_error "time() failed.") <-> found /\ now < 0) /\
    (out = Throw (database_error "String is too large.")
     <-> found /\ 0 <= now /\ size user > u32_max) /\
    (out = OK tt <-> found /\ 0 <= now /\ size user <= u32_max) /\
    (forall content' : str,
        fst (storage.create_comment post_id user content' now store) = out).
Proof.
  intros post_id user content now store out found. subst out found.
  assert (Hsame : forall content' : str,
             fst (storage.create_comment post_id user content' now store)
             = fst (storage.create_comment post_id user content now store))
    by (intros content'; now rewrite !create_comment_outcome).
  rewrite create_comment_outcome in *.
  destruct (lookup (storage.posts store) post_id) as [p|] eqn:Hl.
  - assert (Hin : In post_id (btree.keys (storage.posts store)))
      by (destruct (lookup_some _ _ _ Hl) as [Hp <-]; now apply in_map).
    destruct (Z.ltb_spec now 0) as [Hneg|Hpos];
      [|destruct (Z.gtb_spec (size user) u32_max) as [Hbig|Hsmall]];
      (split; [|split; [|split; [|exact Hsame]]]);
      (split; [intros X; try discriminate X; repeat split; (assumption || lia)
              |intros X; try reflexivity; exfalso; lia]).
  - apply lookup_none in Hl.
    (split; [|split; [|split; [|exact Hsame]]]);
      (split; [discriminate|intros [X _]; contradiction]).
Qed.

(** ** The file header *)

(** X15.  [check_header] accepts a header exactly when its magic is
    "BLABBER_DB" and its version is 1; the magic is checked first, so a
    header with another magic is reported as an invalid file whatever its
    version.  The header [init_master_block] writes is accepted, and version
    2 is reported with both numbers in the message. *)
Theorem check_header_accepts :
  forall header : master.file_header,
    (master.check_header header = OK tt
     <-> master.magic header = "BLABBER_DB" /\ master.version header = 1) /\
    (master.magic header <> "BLABBER_DB" ->
     master.check_header header
     = Throw (runtime_error "Invalid file (wrong magic header).")) /\
    master.check_header master.initial_header = OK tt /\
    master.check_header (master.mk_header "BLABBER_DB" 2)
    = Throw (runtime_error
               "Unsupported version: File version is 2 but only version 1 is supported.").
Proof.
  intros [m v]. unfold master.check_header, master.FILE_FORMAT_MAGIC,
                  master.FILE_FORMAT_VERSION. simpl master.magic. simpl master.version.
  split; [|split; [|split; reflexivity]].
  - destruct (String.eqb_spec m "BLABBER_DB") as [Hm|Hm]; simpl.
    + destruct (Z.eqb_spec v 1) as [Hv|Hv]; simpl.
      * split; [intros _; now split|reflexivity].
      * split; [discriminate|intros [_ H]; contradiction].
    + split; [discriminate|intros [H _]; contradiction].
  - intros Hm. destruct (String.eqb_spec m "BLABBER_DB"); [contradiction|reflexivity].
Qed.

(** ** The collecting loop ends *)

(** X16.  The loop of [fetch_frontpage] and [fetch_post], started at the
    last entry of a container with [n] entries, ends within [n] iterations,
    whatever the limit: it has then collected the last [min (max, n)]
    entries, the last one first. *)
Theorem collect_loop_terminates :
  forall (A : Type) (entries : list A) (max fuel : nat),
    (length entries <= fuel)%nat ->
    cursor.collect_loop fuel (cursor.seek_last entries) max []
    = Some (firstn max (rev entries)).
Proof.
  intros A entries max fuel Hfuel.
  rewrite collect_loop_enough_fuel
    by (rewrite backwards_seek_last, length_rev; exact Hfuel).
  rewrite backwards_seek_last, collect_firstn. simpl. now rewrite Nat.sub_0_r.
Qed.

Lemma collect_loop_terminates_witness :
  cursor.collect_loop 3 (cursor.seek_last [1; 2; 3]) 2 [] = Some [3; 2].
Proof.
  apply (collect_loop_terminates Z [1; 2; 3] 2 3). simpl. lia.
Defined.

(** ** Time stamps *)

Lemma create_post_timestamps (user title content : str) (now : Z)
      (store store' : storage.anchor) (id : Z) :
  timestamps_sane store ->
  storage.create_post user title content now store = (OK id, store') ->
  timestamps_sane store'.
Proof.
  intros Hts Hcp.
  destruct (create_post_ok _ _ _ _ _ _ _ Hcp)
    as [_ [_ [Hnow [user' [title' [h1 [h2 [_ [_ ->]]]]]]]]].
  unfold timestamps_sane in *. simpl.
  apply Forall_insert; [|exact Hts]. simpl. split; [exact Hnow|constructor].
Qed.

Lemma create_comment_timestamps (post_id : Z) (user content : str) (now : Z)
      (store store' : storage.anchor) :
  timestamps_sane store ->
  storage.create_comment post_id user content now store = (OK tt, store') ->
  timestamps_sane store'.
Proof.
  intros Hts Hcc.
  destruct (create_comment_ok _ _ _ _ _ _ Hcc) as [c [user' [h1 [Hf [Hnow [_ ->]]]]]].
  destruct (find_some _ _ _ Hf) as [_ Hc].
  unfold timestamps_sane in *. simpl.
  rewrite <- Hc in Hts. unfold cursor.container in Hts. unfold cursor.set.
  apply Forall_app in Hts. destruct Hts as [Hprev Hrest].
  apply Forall_cons_iff in Hrest. destruct Hrest as [[Hhere Hcs] Hnext].
  apply Forall_app. split; [exact Hprev|].
  constructor; [|exact Hnext]. simpl. split; [exact Hhere|].
  apply Forall_app. split; [exact Hcs|]. now repeat constructor.
Qed.

Lemma serve_timestamps (q : request) (db : database.t) :
  timestamps_sane (database.committed db) ->
  timestamps_sane (database.committed (snd (serve q db))).
Proof.
  intros Hts. destruct q; simpl.
  - unfold database.create_post, database.run_in_transaction.
    destruct (database.m_open db); simpl; [|exact Hts].
    destruct (storage.create_post user title content now (database.committed db))
      as [[id|e] store'] eqn:Hcp; simpl; [|exact Hts].
    exact (create_post_timestamps _ _ _ _ _ _ _ Hts Hcp).
  - unfold database.create_comment, database.run_in_transaction.
    destruct (database.m_open db); simpl; [|exact Hts].
    destruct (storage.create_comment post_id user content now (database.committed db))
      as [[[]|e] store'] eqn:Hcc; simpl; [|exact Hts].
    exact (create_comment_timestamps _ _ _ _ _ _ Hts Hcc).
  - unfold database.fetch_frontpage, database.run_in_transaction.
    destruct (database.m_open db); simpl; [|exact Hts].
    destruct (storage.fetch_frontpage max_posts (database.committed db)); exact Hts.
  - unfold database.fetch_post, database.run_in_transaction.
    destruct (database.m_open db); simpl; [|exact Hts].
    destruct (storage.fetch_post post_id max_comments (database.committed db)); exact Hts.
  - unfold database.dump, database.run_in_transaction.
    destruct (database.m_open db); exact Hts.
  - unfold database.finish. destruct (database.m_open db); exact Hts.
Qed.

Lemma after_timestamps (qs : list request) :
  timestamps_sane (database.committed (after qs)).
Proof.
  unfold after.
  assert (H : forall db, timestamps_sane (database.committed db) ->
                         timestamps_sane (database.committed (snd (serve_all qs db)))).
  { induction qs as [|q rest IH]; intros db Hts; simpl; [exact Hts|].
    pose proof (serve_timestamps q db Hts) as H.
    destruct (serve q db) as [r db']. specialize (IH db' H).
    destruct (serve_all rest db') as [rs db'']. exact IH. }
  apply H. constructor.
Qed.

Lemma map_result_Forall {A B} (f : A -> result B) (P : A -> Prop) (Q : B -> Prop)
      (xs : list A) (ys : list B) :
  (forall x y, f x = OK y -> P x -> Q y) ->
  Forall P xs -> map_result f xs = OK ys -> Forall Q ys.
Proof.
  intros HPQ HP. revert ys. induction HP as [|x rest Hx _ IH]; simpl; intros ys H.
  - injection H as <-. constructor.
  - destruct (f x) as [y|] eqn:Ex; [|discriminate].
    destruct (map_result f rest) as [ys'|]; [|discriminate].
    injection H as <-. constructor; [exact (HPQ _ _ Ex Hx)|now apply IH].
Qed.

Lemma load_post_entry_created_at (h : heap.t) (p : post.t) (e : post_entry.t) :
  storage.load_post_entry h p = OK e -> post_entry.created_at e = post.created_at p.
Proof.
  unfold storage.load_post_entry. intros H.
  destruct (load_optimized_string h (post.user p)); [|discriminate].
  destruct (load_optimized_string h (post.title p)); [|discriminate].
  injection H as <-. reflexivity.
Qed.

(** X17.  Whatever requests a fresh database has served, with whatever
    clock readings, no time stamp that [fetch_frontpage] or [fetch_post]
    returns is negative: not a post's, not a comment's. *)
Theorem timestamps_never_negative :
  forall (qs : list request),
    let store := database.committed (after qs) in
    (forall max_posts r,
        storage.fetch_frontpage max_posts store = OK r ->
        Forall (fun e => 0 <= post_entry.created_at e) (frontpage_result.entries r)) /\
    (forall post_id max_comments r,
        storage.fetch_post post_id max_comments store = OK r ->
        0 <= post_result.created_at r /\
        Forall (fun e => 0 <= comment_entry.created_at e) (post_result.comments r)).
Proof.
  intros qs store. pose proof (after_timestamps qs) as Hts. fold store in Hts.
  unfold timestamps_sane in Hts. split.
  - intros k r Hr. unfold storage.fetch_frontpage, btree.seek_max in Hr.
    rewrite collect_then_reverse in Hr.
    destruct (map_result _ _) as [entries|] eqn:He; [|discriminate].
    injection Hr as <-. simpl.
    refine (map_result_Forall _ _ _ _ _ _ (Forall_skipped _ _ _ Hts) He).
    intros p e Hp [Hc _]. now rewrite (load_post_entry_created_at _ _ _ Hp).
  - intros post_id k r Hr. rewrite fetch_post_read in Hr.
    destruct (lookup (storage.posts store) post_id) as [p|] eqn:Hl; [|discriminate].
    destruct (lookup_some _ _ _ Hl) as [Hin _].
    rewrite Forall_forall in Hts. destruct (Hts p Hin) as [Hp Hcs].
    destruct (read_found_post_inv _ _ _ _ Hr) as [u [t [c [cs [_ [_ [_ [Hm ->]]]]]]]].
    simpl. split; [exact Hp|].
    refine (map_result_Forall _ _ _ _ _ _ (Forall_skipped _ _ _ Hcs) Hm).
    intros c0 e He H0. now rewrite (load_comment_entry_created_at _ _ _ He).
Qed.

(** ** A post never changes *)

Lemma serve_all_app (qs qs' : list request) (db : database.t) :
  snd (serve_all (qs ++ qs') db) = snd (serve_all qs' (snd (serve_all qs db))).
Proof.
  revert db. induction qs as [|q rest IH]; intros db; simpl; [reflexivity|].
  destruct (serve q db) as [r db']. specialize (IH db').
  destruct (serve_all (rest ++ qs') db') as [rs1 db1].
  destruct (serve_all rest db') as [rs2 db2]. exact IH.
Qed.

Lemma create_post_keeps_fetch (user title content : str) (now id other : Z)
      (max_comments : nat) (store store' : storage.anchor) (r : post_result.t) :
  storage.create_post user title content now store = (OK id, store') ->
  other <> id ->
  storage.fetch_post other max_comments store = OK r ->
  storage.fetch_post other max_comments store' = OK r.
Proof.
  intros Hcp Hne Hr.
  destruct (create_post_ok _ _ _ _ _ _ _ Hcp)
    as [_ [_ [_ [user' [title' [h1 [h2 [Hsu [Hst ->]]]]]]]]].
  destruct (store_optimized_string_ok _ _ _ _ _ Hsu) as [_ [[ext1 Hh1] _]].
  destruct (store_optimized_string_ok _ _ _ _ _ Hst) as [_ [[ext2 Hh2] _]].
  rewrite fetch_post_read in Hr |- *. simpl.
  rewrite lookup_insert_other by exact Hne.
  destruct (lookup (storage.posts store) other) as [p|]; [|discriminate].
  rewrite Hh2, Hh1, <- !app_assoc. now apply read_found_post_extended.
Qed.

(** Without its comments, a post reads the same after any successful
    [create_comment]. *)
Lemma create_comment_keeps_fetch_0 (post_id id : Z) (user content : str) (now : Z)
      (store store' : storage.anchor) (r : post_result.t) :
  storage.create_comment post_id user content now store = (OK tt, store') ->
  storage.fetch_post id 0 store = OK r ->
  storage.fetch_post id 0 store' = OK r.
Proof.
  intros Hcc Hr.
  destruct (create_comment_ok _ _ _ _ _ _ Hcc) as [c [user' [h1 [Hf [_ [Hsu ->]]]]]].
  destruct (store_optimized_string_ok _ _ _ _ _ Hsu) as [_ [[ext1 Hh1] _]].
  destruct (find_some _ _ _ Hf) as [Hid _].
  rewrite fetch_post_read in Hr |- *. simpl.
  destruct (Z.eq_dec id post_id) as [->|Hne].
  - unfold lookup in Hr. rewrite Hf in Hr. simpl in Hr.
    rewrite (lookup_after_set _ _ _ _ Hf) by exact Hid.
    apply (read_found_post_extended _ (ext1 ++ [content])) in Hr.
    rewrite app_assoc, <- Hh1 in Hr.
    rewrite read_found_post_unfold in Hr |- *. simpl.
    rewrite Nat.sub_0_r, skipn_all in Hr. rewrite Nat.sub_0_r, skipn_all.
    exact Hr.
  - rewrite (lookup_other_after_set _ _ _ _ _ Hf) by assumption.
    destruct (lookup (storage.posts store) id) as [p|]; [|discriminate].
    rewrite Hh1, <- app_assoc. now apply read_found_post_extended.
Qed.

Lemma serve_keeps_post (q : request) (db : database.t) (post_id : Z) (r : post_result.t) :
  well_formed (database.committed db) ->
  storage.fetch_post post_id 0 (database.committed db) = OK r ->
  storage.fetch_post post_id 0 (database.committed (snd (serve q db))) = OK r.
Proof.
  intros Hwf Hr. destruct q; simpl.
  - unfold database.create_post, database.run_in_transaction.
    destruct (database.m_open db); simpl; [|exact Hr].
    destruct (storage.create_post user title content now (database.committed db))
      as [[id|e] store'] eqn:Hcp; simpl; [|exact Hr].
    apply (create_post_keeps_fetch _ _ _ _ _ _ _ _ _ _ Hcp); [|exact Hr].
    destruct (create_post_well_formed _ _ _ _ _ _ _ Hwf Hcp) as [Hid _].
    rewrite fetch_post_read in Hr.
    destruct (lookup (storage.posts (database.committed db)) post_id) as [p|] eqn:Hl;
      [|discriminate].
    destruct (lookup_some _ _ _ Hl) as [Hin Hp].
    assert (Hk : In post_id (btree.keys (storage.posts (database.committed db))))
      by (rewrite <- Hp; now apply in_map).
    apply (well_formed_keys_below _ _ Hwf) in Hk. lia.
  - unfold database.create_comment, database.run_in_transaction.
    destruct (database.m_open db); simpl; [|exact Hr].
    destruct (storage.create_comment post_id0 user content now (database.committed db))
      as [[[]|e] store'] eqn:Hcc; simpl; [|exact Hr].
    exact (create_comment_keeps_fetch_0 _ _ _ _ _ _ _ _ Hcc Hr).
  - unfold database.fetch_frontpage, database.run_in_transaction.
    destruct (database.m_open db); simpl; [|exact Hr].
    destruct (storage.fetch_frontpage max_posts (database.committed db)); exact Hr.
  - unfold database.fetch_post, database.run_in_transaction.
    destruct (database.m_open db); simpl; [|exact Hr].
    destruct (storage.fetch_post post_id0 max_comments (database.committed db)); exact Hr.
  - unfold database.dump, database.run_in_transaction.
    destruct (database.m_open db); exact Hr.
  - unfold database.finish. destruct (database.m_open db); exact Hr.
Qed.

(** X18.  Whatever requests a fresh database has served, what
    [fetch_post(id, 0)] returns for a post - its id, time, user, title and
    content - is what it returns after any further requests: posts are never
    changed, replaced or removed. *)
Theorem posts_never_change :
  forall (qs qs' : list request) (post_id : Z) (r : post_result.t),
    storage.fetch_post post_id 0 (database.committed (after qs)) = OK r ->
    storage.fetch_post post_id 0 (database.committed (after (qs ++ qs'))) = OK r.
Proof.
  intros qs qs' post_id r Hr. unfold after. rewrite serve_all_app. fold (after qs).
  pose proof (after_well_formed qs) as Hwf.
  generalize dependent (after qs). clear qs.
  induction qs' as [|q rest IH]; intros db Hr Hwf; simpl; [exact Hr|].
  pose proof (serve_keeps_post q db post_id r Hwf Hr) as Hr'.
  pose proof (serve_well_formed q db Hwf) as Hwf'.
  destruct (serve q db) as [rs db']. specialize (IH db' Hr' Hwf').
  destruct (serve_all rest db') as [rs' db'']. exact IH.
Qed.

Lemma posts_never_change_witness :
  storage.fetch_post 1 0
    (database.committed
       (after (two_posts ++ [CreateComment 1 (bytes "carol") (bytes "nice") 102;
                             CreatePost (bytes "dave") (bytes "t") (bytes "c") 103])))
  = OK (post_result.mk 1 100 (bytes "alice") (bytes "hi") (bytes "hello world") []).
Proof.
  apply (posts_never_change two_posts). vm_compute; reflexivity.
Defined.

(** ** Requests that leave no trace *)



